(** * hash.c: a shallow embedding and its verification

    The development follows [src/hash.c] function by function:
    [digit_return], [pow10ll], [isqrt], [quadratic_roots],
    [quadratic_division] and [hash].

    Modelling conventions.
    - A [long long] is a [Z] in [-2^63, 2^63); every signed operation is
      followed by [wrap64], the two's complement wrap-around the
      specification names as the overflow policy of the accumulator.  C
      leaves signed overflow undefined, and a compiler may treat an
      overflowed accumulator otherwise; what is stated about [hash] and its
      quadratic stage is therefore stated for accumulators in
      [0, LLONG_MAX] and for strings packed without overflow
      ([no_overflow]), where no operation wraps.
    - An [int] is a [Z] wrapped by [wrap32]; a [uint64_t] is a [Z] reduced
      by [to_u64].
    - [/] and [%] of C truncate toward zero ([Z.quot], [Z.rem]); they fault
      on a zero divisor, and on [LLONG_MIN / -1].
    - A computation ends in a value, in an arithmetic fault, or exhausts the
      iteration budget of a loop ([outcome]).
    - The [static char out[17]] buffer of [hash] is an explicit state. *)

From Stdlib Require Import ZArith Lia List Bool Ascii String.
Import ListNotations.
Local Open Scope Z_scope.

(** ** Machine integers *)

Module Int.

Definition min_ll : Z := - 2 ^ 63.
Definition max_ll : Z := 2 ^ 63 - 1.

(** Range of a [long long]. *)
Definition in_ll (z : Z) : Prop := min_ll <= z <= max_ll.

(** Two's complement wrap-around of a 64-bit signed result. *)
Definition wrap64 (z : Z) : Z := (z + 2 ^ 63) mod 2 ^ 64 - 2 ^ 63.

(** Wrap-around of a 32-bit [int] result. *)
Definition wrap32 (z : Z) : Z := (z + 2 ^ 31) mod 2 ^ 32 - 2 ^ 31.

(** Conversion to [uint64_t] / [unsigned long long]. *)
Definition to_u64 (z : Z) : Z := z mod 2 ^ 64.

Definition in_u64 (z : Z) : Prop := 0 <= z < 2 ^ 64.

End Int.
Import Int.

(** ** Outcomes of a run *)

Inductive fault : Type :=
| DivByZero      (* division or remainder by zero *)
| DivOverflow.   (* LLONG_MIN / -1 *)

Inductive outcome (A : Type) : Type :=
| Done (a : A)
| Fault (f : fault)
| Diverge.       (* a loop used up its iteration budget *)

Arguments Done {A} a.
Arguments Fault {A} f.
Arguments Diverge {A}.

Definition bind {A B : Type} (m : outcome A) (k : A -> outcome B) : outcome B :=
  match m with
  | Done a => k a
  | Fault f => Fault f
  | Diverge => Diverge
  end.

Notation "x <- m ;; k" := (bind m (fun x => k))
  (at level 61, m at next level, right associativity).

(** Signed division and remainder of two [long long]s. *)
Definition sdiv (a b : Z) : outcome Z :=
  if b =? 0 then Fault DivByZero
  else if (a =? min_ll) && (b =? -1) then Fault DivOverflow
  else Done (Z.quot a b).

Definition srem (a b : Z) : outcome Z :=
  if b =? 0 then Fault DivByZero
  else if (a =? min_ll) && (b =? -1) then Fault DivOverflow
  else Done (Z.rem a b).

(** ** While loops

    [run_pow d s] runs at most [2^d] iterations of [while (cond) body] from
    state [s]; [while] grants a loop [2^64] iterations, more than the number
    of states a strictly decreasing 64-bit variable can go through. *)

Section Loop.
Context {St : Type}.
Variable cond : St -> bool.
Variable body : St -> outcome St.

Inductive run : Type :=
| Exited (s : St)
| Running (s : St)
| Stopped (f : fault)
| Lost.

Definition step (s : St) : run :=
  if cond s then
    match body s with
    | Done s' => Running s'
    | Fault f => Stopped f
    | Diverge => Lost
    end
  else Exited s.

Fixpoint run_pow (d : nat) (s : St) : run :=
  match d with
  | O => step s
  | S d' =>
      match run_pow d' s with
      | Running s' => run_pow d' s'
      | r => r
      end
  end.

Definition while (s : St) : outcome St :=
  match run_pow 64 s with
  | Exited s' => Done s'
  | Running _ => Diverge
  | Stopped f => Fault f
  | Lost => Diverge
  end.
End Loop.

(** ** [digit_return] (hash.c, lines 13-22) *)

(** Loop state: [(num, digits)]. *)
Definition digit_return (num : Z) : outcome Z :=
  if num =? 0 then Done 1
  else
    st <- while (fun '(num, _) => 0 <? num)
                (fun '(num, digits) =>
                   q <- sdiv num 10 ;;
                   Done (q, wrap64 (digits + 1)))
                (num, 0) ;;
    Done (snd st).

(** ** [pow10ll] (hash.c, lines 27-33)

    [while (n-- > 0) r *= 10;] multiplies [max n 0] times. *)
Definition pow10ll (n : Z) : Z :=
  Nat.iter (Z.to_nat n) (fun r => wrap64 (r * 10)) 1.

(** ** [isqrt] (hash.c, lines 39-48) *)

(** Loop state: [(x, y)]; [n] is not modified. *)
Definition isqrt (n : Z) : outcome Z :=
  let x := n in
  y <- sdiv (wrap64 (x + 1)) 2 ;;
  st <- while (fun '(x, y) => y <? x)
              (fun '(_, y) =>
                 let x := y in
                 q <- sdiv n x ;;
                 y' <- sdiv (wrap64 (x + q)) 2 ;;
                 Done (x, y'))
              (x, y) ;;
  Done (fst st).

(** ** [quadratic_roots] (hash.c, lines 57-80) *)

Definition quadratic_roots (a b c : Z) : outcome Z :=
  let discriminant := wrap64 (wrap64 (b * b) - wrap64 (wrap64 (4 * a) * c)) in
  base <- sdiv (wrap64 (- b)) (wrap64 (2 * a)) ;;
  parts <-
    (if discriminant <? 0 then
       let discriminant := wrap64 (- discriminant) in
       imag_part <- isqrt discriminant ;;
       Done (base, imag_part)
     else
       sqrt_d <- isqrt discriminant ;;
       q1 <- sdiv sqrt_d (wrap64 (2 * a)) ;;
       let root1 := wrap64 (base + q1) in
       q2 <- sdiv sqrt_d (wrap64 (2 * a)) ;;
       let root2 := wrap64 (base - q2) in
       Done (if root1 <? root2 then root1 else root2,
             if root1 <? root2 then root2 else root1)) ;;
  let '(real_part, imag_part) := parts in
  let real_part := if real_part <? 0 then wrap64 (- real_part) else real_part in
  let imag_part := if imag_part <? 0 then wrap64 (- imag_part) else imag_part in
  Done (wrap64 (wrap64 (real_part * 1000000) + imag_part)).

(** ** [quadratic_division] (hash.c, lines 86-99) *)

Definition chunk_div (digits : Z) : Z := Z.quot digits 3.
Definition chunk_rem (digits : Z) : Z :=
  wrap32 (digits - wrap32 (2 * chunk_div digits)).

(** The three chunks [(x_square, x, constant)] handed to
    [quadratic_roots]. *)
Definition chunks (num digits : Z) : outcome (Z * Z * Z) :=
  let div := chunk_div digits in
  let rem := chunk_rem digits in
  let p1 := pow10ll div in
  let p2 := pow10ll (wrap32 (div + rem)) in
  constant <- srem num p1 ;;
  q <- sdiv num p1 ;;
  x <- srem q p1 ;;
  x_square <- sdiv num p2 ;;
  Done (x_square, x, constant).

Definition quadratic_division (num digits : Z) : outcome Z :=
  abc <- chunks num digits ;;
  let '(x_square, x, constant) := abc in
  quadratic_roots x_square x constant.

(** ** [hash] (hash.c, lines 105-137) *)

(** *** Step 1: the digit packer (lines 110-120)

    A C string is the characters in front of its first NUL; a Rocq [string]
    is read up to its end or to a NUL character, whichever comes first. *)

Definition byte_of (c : ascii) : Z := Z.of_N (N_of_ascii c).

(** One round of the loop.  The products and the sum wrap around; under
    [no_overflow] they are exact. *)
Definition pack_step (num ch : Z) : Z :=
  let num :=
    if ch <? 10 then wrap64 (num * 10)
    else if ch <? 100 then wrap64 (num * 100)
    else wrap64 (num * 1000) in
  wrap64 (num + ch).

Fixpoint pack_from (num : Z) (str : string) : Z :=
  match str with
  | EmptyString => num
  | String c rest =>
      let ch := byte_of c in
      if ch =? 0 then num else pack_from (pack_step num ch) rest
  end.

Definition pack (str : string) : Z := pack_from 0 str.

(** *** Notions of the specification about the packer

    The byte values of a string, and printable text (values 32 to 126). *)
Definition codes (str : string) : list Z :=
  map byte_of (list_ascii_of_string str).

Definition printable_code (ch : Z) : Prop := 32 <= ch <= 126.

Definition printable (str : string) : Prop := Forall printable_code (codes str).

(** The width of the decimal slot of a character, as a power of ten. *)
Definition slot (ch : Z) : Z :=
  if ch <? 10 then 10 else if ch <? 100 then 100 else 1000.

(** [no_overflow_from num str]: from accumulator [num], every product and
    every sum of the packer's loop over [str] is a [long long] as it stands,
    before any wrap-around. *)
Definition fits_ll (z : Z) : bool := (min_ll <=? z) && (z <=? max_ll).

Fixpoint no_overflow_from (num : Z) (str : string) : bool :=
  match str with
  | EmptyString => true
  | String c rest =>
      let ch := byte_of c in
      if ch =? 0 then true
      else
        fits_ll (num * slot ch) && fits_ll (num * slot ch + ch)
        && no_overflow_from (num * slot ch + ch) rest
  end.

Definition no_overflow (str : string) : bool := no_overflow_from 0 str.

(** *** Step 2: the quadratic gadget (lines 123-124)

    The digit count is cast to [int] on the way. *)
Definition quadratic_stage (num : Z) : outcome Z :=
  digits <- digit_return num ;;
  quadratic_division num (wrap32 digits).

(** *** Step 3: the finalizer (lines 127-132) *)

Definition K_phi : Z := 0x9E3779B97F4A7C15.
Definition K_mix1 : Z := 0xFF51AFD7ED558CCD.
Definition K_mix2 : Z := 0xC4CEB9FE1A85EC53.

Definition finalizer (num quad : Z) : Z :=
  let h := Z.lxor (to_u64 num) (to_u64 (to_u64 quad * K_phi)) in
  let h := Z.lxor h (Z.shiftr h 33) in
  let h := to_u64 (h * K_mix1) in
  let h := Z.lxor h (Z.shiftr h 33) in
  let h := to_u64 (h * K_mix2) in
  let h := Z.lxor h (Z.shiftr h 33) in
  h.

(** *** Step 4: the formatter (lines 134-136)

    [snprintf (out, size, "%016llx", h)]: the conversion [llx] writes the
    hexadecimal digits of [h], most significant first and without leading
    zeros; the flag [0] with width 16 pads with zeros on the left; at most
    [size - 1] characters are stored, followed by a NUL. *)

Definition NUL : ascii := ascii_of_N 0.

Definition hex_digit (d : Z) : ascii :=
  nth (Z.to_nat d)
      ["0"; "1"; "2"; "3"; "4"; "5"; "6"; "7";
       "8"; "9"; "a"; "b"; "c"; "d"; "e"; "f"]%char NUL.

(** A 64-bit value has at most 16 hexadecimal digits. *)
Fixpoint to_hex (fuel : nat) (n : Z) (acc : list ascii) : list ascii :=
  match fuel with
  | O => acc
  | S f =>
      let acc' := hex_digit (n mod 16) :: acc in
      if n / 16 =? 0 then acc' else to_hex f (n / 16) acc'
  end.

Definition llx (h : Z) : list ascii := to_hex 16 h [].

Definition zero_pad (width : nat) (l : list ascii) : list ascii :=
  repeat "0"%char (width - List.length l) ++ l.

Definition buffer : Type := list ascii.

Definition snprintf_016llx (out : buffer) (size : nat) (h : Z) : buffer :=
  match size with
  | O => out
  | S room =>
      let written := firstn room (zero_pad 16 (llx h)) ++ [NUL] in
      written ++ skipn (List.length written) out
  end.

(** *** The whole function

    The static buffer [out] is threaded through the call; the pointer that
    [hash] returns always designates it. *)
Definition out_size : nat := 17.

Definition hash (str : string) (out : buffer) : outcome buffer :=
  let num := pack str in
  quad <- quadratic_stage num ;;
  let h := finalizer num quad in
  Done (snprintf_016llx out out_size h).

(** *** Notions of the specification about the digest

    The C string held by a buffer. *)
Fixpoint c_str (b : buffer) : list ascii :=
  match b with
  | [] => []
  | c :: rest => if Ascii.eqb c NUL then [] else c :: c_str rest
  end.

(** The number a hexadecimal numeral denotes. *)
Definition hex_value (c : ascii) : option Z :=
  let n := byte_of c in
  if (48 <=? n) && (n <=? 57) then Some (n - 48)
  else if (97 <=? n) && (n <=? 102) then Some (n - 87)
  else if (65 <=? n) && (n <=? 70) then Some (n - 55)
  else None.

Fixpoint parse_hex_from (acc : Z) (l : list ascii) : option Z :=
  match l with
  | [] => Some acc
  | c :: rest =>
      match hex_value c with
      | Some d => parse_hex_from (acc * 16 + d) rest
      | None => None
      end
  end.

Definition parse_hex (l : list ascii) : option Z := parse_hex_from 0 l.

Definition is_lower_hex (c : ascii) : bool :=
  let n := byte_of c in
  ((48 <=? n) && (n <=? 57)) || ((97 <=? n) && (n <=? 102)).

(** A buffer before the first call, and an input of 21 letters whose
    accumulator overflows and comes back to 0. *)
Definition blank : buffer := repeat NUL out_size.

Definition s_wrap0 : string := "fjdkdgifddjhefgfgiegh".

(** ** Auxiliary notions of the proofs *)

(** One Newton step from [x]. *)
Definition newton_next (n x : Z) : Z := (x + n / x) / 2.

(** One exact step: shift by the slot of [ch], then add [ch]. *)
Definition exact_step (num ch : Z) : Z := num * slot ch + ch.

(** The cascade in the words of the specification (section 4.3): the
    operations are those of the integers, each product and the initial
    combination reduced modulo [2^64]. *)
Definition spec_finalizer (packed scrambled : Z) : Z :=
  let h := (Z.lxor packed (scrambled * 0x9E3779B97F4A7C15)) mod 2 ^ 64 in
  let h := Z.lxor h (Z.shiftr h 33) in
  let h := (h * 0xFF51AFD7ED558CCD) mod 2 ^ 64 in
  let h := Z.lxor h (Z.shiftr h 33) in
  let h := (h * 0xC4CEB9FE1A85EC53) mod 2 ^ 64 in
  let h := Z.lxor h (Z.shiftr h 33) in
  h.

(** Exactly [f] hexadecimal digits of [n], most significant first. *)
Fixpoint fixed_hex (f : nat) (n : Z) (acc : list ascii) : list ascii :=
  match f with
  | O => acc
  | S f' => fixed_hex f' (n / 16) (hex_digit (n mod 16) :: acc)
  end.

(** The sixteen digits that [hash] stores for a 64-bit value. *)
Definition digest_of (h : Z) : list ascii := fixed_hex 16 h [].

(** The string a caller reads through the pointer that [hash] returned. *)
Definition returned (o : outcome buffer) : outcome (list ascii) :=
  b <- o ;; Done (c_str b).

(** The number of decimal digits of the slot of a character, and of all
    the slots of a list of characters. *)
Definition slot_digits (ch : Z) : Z :=
  if ch <? 10 then 1 else if ch <? 100 then 2 else 3.

Definition total_digits (l : list Z) : Z :=
  fold_right (fun ch w => slot_digits ch + w) 0 l.

(** The inverses, modulo [2^64], of the three odd constants of the
    finalizer. *)
Definition K_phi_inv : Z := 0xF1DE83E19937733D.
Definition K_mix1_inv : Z := 0x4F74430C22A54005.
Definition K_mix2_inv : Z := 0x9CB4B2F8129337DB.

(** * Verification *)

(** ** Machine arithmetic *)

Lemma wrap64_small z : in_ll z -> wrap64 z = z.
Proof.
  unfold in_ll, wrap64, min_ll, max_ll; intros H.
  rewrite Z.mod_small; lia.
Qed.

Lemma wrap64_range z : in_ll (wrap64 z).
Proof.
  unfold in_ll, wrap64, min_ll, max_ll.
  pose proof (Z.mod_pos_bound (z + 2 ^ 63) (2 ^ 64)); lia.
Qed.

Lemma wrap32_small z : - 2 ^ 31 <= z < 2 ^ 31 -> wrap32 z = z.
Proof.
  unfold wrap32; intros H. rewrite Z.mod_small; lia.
Qed.

Lemma to_u64_range z : in_u64 (to_u64 z).
Proof. unfold in_u64, to_u64. apply Z.mod_pos_bound. lia. Qed.

Lemma sdiv_pos a b : 0 <= a -> 0 < b -> sdiv a b = Done (a / b).
Proof.
  intros Ha Hb. unfold sdiv.
  destruct (Z.eqb_spec b 0); [lia|].
  destruct (Z.eqb_spec b (-1)); [lia|].
  rewrite andb_false_r, Z.quot_div_nonneg by lia. reflexivity.
Qed.

Lemma srem_pos a b : 0 <= a -> 0 < b -> srem a b = Done (a mod b).
Proof.
  intros Ha Hb. unfold srem.
  destruct (Z.eqb_spec b 0); [lia|].
  destruct (Z.eqb_spec b (-1)); [lia|].
  rewrite andb_false_r, Z.rem_mod_nonneg by lia. reflexivity.
Qed.

(** ** Loops: exit, invariant and variant *)

Section LoopFacts.
Context {St : Type}.
Variable cond : St -> bool.
Variable body : St -> outcome St.
Variable Inv : St -> Prop.
Variable m : St -> Z.

Lemma run_pow_exit d s : cond s = false -> run_pow cond body d s = Exited s.
Proof.
  intros Hc. induction d as [|d IH]; simpl.
  - unfold step. now rewrite Hc.
  - now rewrite IH.
Qed.

Lemma while_exit s : cond s = false -> while cond body s = Done s.
Proof. intros Hc. unfold while. now rewrite run_pow_exit. Qed.

Hypothesis body_ok :
  forall s, Inv s -> cond s = true ->
    exists s', body s = Done s' /\ Inv s' /\ 0 <= m s' < m s.

Lemma run_pow_progress d s :
  Inv s -> 0 <= m s ->
  (exists s', run_pow cond body d s = Exited s' /\ Inv s' /\ cond s' = false)
  \/ (exists s', run_pow cond body d s = Running s' /\ Inv s' /\
                 0 <= m s' /\ m s' + 2 ^ Z.of_nat d <= m s).
Proof.
  revert s. induction d as [|d IH]; intros s HI Hm.
  - simpl. unfold step. destruct (cond s) eqn:Hc.
    + destruct (body_ok s HI Hc) as (s' & -> & HI' & Hlt).
      right. exists s'. repeat split; try assumption; lia.
    + left. now exists s.
  - cbn [run_pow].
    destruct (IH s HI Hm) as [(s' & -> & HI' & Hc) | (s' & -> & HI' & H0 & Hd)].
    + left. now exists s'.
    + destruct (IH s' HI' H0) as [(s2 & -> & HI2 & Hc) | (s2 & -> & HI2 & H2 & Hd2)].
      * left. now exists s2.
      * right. exists s2. repeat split; try assumption.
        rewrite Nat2Z.inj_succ, Z.pow_succ_r by lia. lia.
Qed.

(** Total correctness of a loop whose variant fits in 64 bits. *)
Lemma while_total s :
  Inv s -> 0 <= m s < 2 ^ 64 ->
  exists s', while cond body s = Done s' /\ Inv s' /\ cond s' = false.
Proof.
  intros HI Hm. unfold while.
  destruct (run_pow_progress 64 s HI (proj1 Hm))
    as [(s' & -> & HI' & Hc) | (s' & -> & _ & H0 & Hd)].
  - now exists s'.
  - exfalso. change (Z.of_nat 64) with 64 in Hd. lia.
Qed.
End LoopFacts.

(** ** [digit_return] counts the decimal digits *)

Lemma pow10_lt_19 k : 0 <= k -> 10 ^ k <= max_ll -> k < 19.
Proof.
  intros Hk H.
  destruct (Z.lt_ge_cases k 19) as [|Hge]; [assumption|].
  assert (10 ^ 19 <= 10 ^ k) by (apply Z.pow_le_mono_r; lia).
  unfold max_ll in H. lia.
Qed.

Lemma digit_return_pos num :
  0 < num <= max_ll ->
  exists d, digit_return num = Done d /\ 1 <= d <= 19 /\
            10 ^ (d - 1) <= num < 10 ^ d.
Proof.
  intros Hn. unfold digit_return.
  destruct (Z.eqb_spec num 0); [lia|].
  pose (Inv := fun st : Z * Z =>
    let '(r, k) := st in
    0 <= r /\ 0 <= k /\ r = num / 10 ^ k /\ (k = 0 \/ 10 ^ (k - 1) <= num)).
  edestruct (while_total (fun '(num, _) => 0 <? num)
               (fun '(num, digits) => q <- sdiv num 10 ;;
                                       Done (q, wrap64 (digits + 1)))
               Inv fst) with (s := (num, 0))
    as ([r k] & -> & (Hr & Hk & Hq & Hlow) & Hc).
  - intros [r k] (Hr & Hk & Hq & Hlow) Hc.
    apply Z.ltb_lt in Hc.
    assert (Hpk : 0 < 10 ^ k) by (apply Z.pow_pos_nonneg; lia).
    assert (Hle : 10 ^ k <= num).
    { destruct (Z.le_gt_cases (10 ^ k) num) as [|Hgt]; [assumption|].
      rewrite Z.div_small in Hq by lia. lia. }
    assert (k < 19) by (apply pow10_lt_19; lia).
    exists (r / 10, k + 1). rewrite sdiv_pos by lia. cbn [bind].
    rewrite wrap64_small by (unfold in_ll, min_ll, max_ll; lia).
    split; [reflexivity|]. split.
    + repeat split.
      * apply Z.div_pos; lia.
      * lia.
      * rewrite Hq, Z.pow_add_r, Z.pow_1_r, Z.div_div by lia. reflexivity.
      * right. replace (k + 1 - 1) with k by lia. assumption.
    + cbn [fst]. split; [apply Z.div_pos; lia|].
      apply Z.div_lt; lia.
  - cbn. repeat split; try lia. rewrite Z.div_1_r. reflexivity.
  - cbn [fst]. unfold max_ll in Hn. lia.
  - cbn [bind snd]. apply Z.ltb_ge in Hc.
    assert (r = 0) by lia. subst r.
    assert (Hpk : 0 < 10 ^ k) by (apply Z.pow_pos_nonneg; lia).
    assert (Hlt : num < 10 ^ k).
    { destruct (Z.lt_ge_cases num (10 ^ k)) as [|Hge]; [assumption|].
      assert (1 <= num / 10 ^ k) by (apply Z.div_le_lower_bound; lia). lia. }
    destruct Hlow as [-> | Hlow].
    { rewrite Z.pow_0_r in Hlt. lia. }
    assert (k <> 0).
    { intros ->. rewrite Z.pow_0_r in Hlt. lia. }
    exists k. split; [reflexivity|]. split; [|lia].
    assert (k - 1 < 19) by (apply pow10_lt_19; lia). lia.
Qed.

Lemma digit_return_zero : digit_return 0 = Done 1.
Proof. reflexivity. Qed.

Lemma digit_return_neg num : num < 0 -> digit_return num = Done 0.
Proof.
  intros Hn. unfold digit_return.
  destruct (Z.eqb_spec num 0); [lia|].
  rewrite while_exit; [reflexivity|].
  apply Z.ltb_ge. lia.
Qed.

(** ** [isqrt]: Newton's iteration *)

Section Newton.
Variable n : Z.
Hypothesis n_pos : 0 <= n.

(** A step never goes below the integer square root. *)
Lemma newton_above x : 1 <= x -> Z.sqrt n <= newton_next n x.
Proof.
  intros Hx. unfold newton_next.
  pose proof (Z.sqrt_spec n n_pos) as [Hs _].
  pose proof (Z.sqrt_nonneg n) as Hs0.
  set (s := Z.sqrt n) in *.
  pose proof (Z.div_mod n x ltac:(lia)) as Hdm.
  pose proof (Z.mod_pos_bound n x ltac:(lia)) as Hr.
  set (q := n / x) in *.
  assert (0 <= q) by (apply Z.div_pos; lia).
  pose proof (Z.div_mod (x + q) 2 ltac:(lia)) as Hdm2.
  pose proof (Z.mod_pos_bound (x + q) 2 ltac:(lia)) as Hr2.
  set (y := (x + q) / 2) in *.
  destruct (Z.le_gt_cases s y) as [|Hlt]; [assumption|exfalso].
  assert (Hq : x + q + 1 <= 2 * s) by lia.
  assert (Hn : 4 * n < 4 * (x * (q + 1))) by nia.
  assert (Ham : 4 * (x * (q + 1)) <= (x + q + 1) * (x + q + 1)).
  { pose proof (Z.square_nonneg (x - q - 1)) as Hsq0.
    lia. }
  assert (Hsq : (x + q + 1) * (x + q + 1) <= (2 * s) * (2 * s)).
  { apply Z.mul_le_mono_nonneg; lia. }
  lia.
Qed.

(** Above the square root a step strictly decreases. *)
Lemma newton_decreases x : Z.sqrt n < x -> newton_next n x < x.
Proof.
  intros Hx. unfold newton_next.
  pose proof (Z.sqrt_spec n n_pos) as [_ Hs].
  pose proof (Z.sqrt_nonneg n) as Hs0.
  assert (Hq : n / x < x) by (apply Z.div_lt_upper_bound; nia).
  apply Z.div_lt_upper_bound; lia.
Qed.

Lemma newton_sum_bound x : 1 <= x <= n -> x + n / x <= n + 1.
Proof.
  intros Hx.
  pose proof (Z.div_mod n x ltac:(lia)) as Hdm.
  pose proof (Z.mod_pos_bound n x ltac:(lia)) as Hr.
  assert (1 <= n / x) by (apply Z.div_le_lower_bound; lia).
  nia.
Qed.
End Newton.

Lemma isqrt_zero : isqrt 0 = Done 0.
Proof. reflexivity. Qed.

Lemma isqrt_floor n : 0 <= n < max_ll -> isqrt n = Done (Z.sqrt n).
Proof.
  intros Hn.
  destruct (Z.eq_dec n 0) as [-> | Hn0]; [reflexivity|].
  assert (Hsq : 1 <= Z.sqrt n) by (apply (Z.sqrt_le_mono 1 n); lia).
  unfold isqrt. cbv zeta.
  rewrite wrap64_small by (unfold in_ll, min_ll, max_ll in *; lia).
  rewrite sdiv_pos by lia. cbn [bind].
  pose (Inv := fun st : Z * Z =>
    let '(x, y) := st in
    1 <= x <= n /\ Z.sqrt n <= x /\ y = (x + n / x) / 2).
  edestruct (while_total (fun '(x, y) => y <? x)
               (fun '(_, y) => q <- sdiv n y ;;
                               y' <- sdiv (wrap64 (y + q)) 2 ;;
                               Done (y, y'))
               Inv fst) with (s := (n, (n + 1) / 2))
    as ([x y] & -> & (Hx & Hlow & Hy) & Hc).
  - intros [x y] (Hx & Hlow & Hy) Hc. apply Z.ltb_lt in Hc.
    assert (Hy1 : Z.sqrt n <= y) by (subst y; apply newton_above; lia).
    exists (y, (y + n / y) / 2).
    rewrite sdiv_pos by lia. cbn [bind].
    pose proof (newton_sum_bound n ltac:(lia) y ltac:(lia)).
    assert (0 <= n / y) by (apply Z.div_pos; lia).
    rewrite wrap64_small by (unfold in_ll, min_ll, max_ll in *; lia).
    rewrite sdiv_pos by lia. cbn [bind fst].
    repeat split; lia.
  - cbn. repeat split; try lia.
    + apply Z.sqrt_le_lin; lia.
    + rewrite Z.div_same by lia. reflexivity.
  - cbn [fst]. unfold max_ll in Hn. lia.
  - cbn [bind fst]. apply Z.ltb_ge in Hc. f_equal.
    destruct (Z.le_gt_cases x (Z.sqrt n)) as [|Hgt]; [lia|].
    pose proof (newton_decreases n ltac:(lia) x Hgt) as Hd. unfold newton_next in Hd. lia.
Qed.

(** [isqrt] never faults, whatever the [long long] it is given. *)
Lemma isqrt_returns n : in_ll n -> exists r, isqrt n = Done r.
Proof.
  intros [Hlo Hhi].
  destruct (Z.lt_ge_cases n 0) as [Hneg | Hpos].
  - exists n. unfold isqrt. cbv zeta.
    rewrite wrap64_small by (unfold in_ll, min_ll, max_ll in *; lia).
    unfold sdiv.
    destruct (Z.eqb_spec (n + 1) min_ll);
      [unfold min_ll, max_ll in *; lia|].
    cbn [Z.eqb andb bind].
    rewrite while_exit; [reflexivity|].
    apply Z.ltb_ge.
    pose proof (Z.quot_opp_l (-(n + 1)) 2 ltac:(lia)) as Ho.
    rewrite Z.opp_involutive in Ho.
    assert (Hq : Z.quot (- (n + 1)) 2 <= - (n + 1)).
    { rewrite Z.quot_div_nonneg by lia.
      apply Z.div_le_upper_bound; lia. }
    lia.
  - destruct (Z.eq_dec n max_ll) as [-> | Hne].
    + eexists. vm_compute. reflexivity.
    + exists (Z.sqrt n). apply isqrt_floor. lia.
Qed.

(** ** [quadratic_roots]: where it faults *)

Lemma sdiv_done a b : b <> 0 -> b <> -1 -> sdiv a b = Done (Z.quot a b).
Proof.
  intros H0 H1. unfold sdiv.
  destruct (Z.eqb_spec b 0); [contradiction|].
  destruct (Z.eqb_spec b (-1)); [contradiction|].
  now rewrite andb_false_r.
Qed.

Lemma srem_done a b : b <> 0 -> b <> -1 -> srem a b = Done (Z.rem a b).
Proof.
  intros H0 H1. unfold srem.
  destruct (Z.eqb_spec b 0); [contradiction|].
  destruct (Z.eqb_spec b (-1)); [contradiction|].
  now rewrite andb_false_r.
Qed.

(** [2 * a] is even, also after it wrapped. *)
Lemma wrap64_double a : exists k, wrap64 (2 * a) = 2 * k.
Proof.
  exists ((a + 2 ^ 62) mod 2 ^ 63 - 2 ^ 62). unfold wrap64.
  replace (2 * a + 2 ^ 63) with (2 * (a + 2 ^ 62)) by lia.
  change (2 ^ 64) with (2 * 2 ^ 63).
  rewrite Z.mul_mod_distr_l by lia. lia.
Qed.

Lemma wrap64_double_zero a :
  in_ll a -> (wrap64 (2 * a) = 0 <-> a = 0 \/ a = min_ll).
Proof.
  unfold in_ll, wrap64, min_ll, max_ll. intros Ha. split.
  - intros H.
    assert (Hm : (2 * a + 2 ^ 63) mod 2 ^ 64 = 2 ^ 63) by lia.
    pose proof (Z.div_mod (2 * a + 2 ^ 63) (2 ^ 64) ltac:(lia)) as Hdm.
    rewrite Hm in Hdm.
    assert ((2 * a + 2 ^ 63) / 2 ^ 64 = 0 \/ (2 * a + 2 ^ 63) / 2 ^ 64 = -1)
      as [Hq | Hq] by lia; rewrite Hq in Hdm; lia.
  - intros [-> | ->]; reflexivity.
Qed.

Lemma quadratic_roots_fault a b c :
  wrap64 (2 * a) = 0 -> quadratic_roots a b c = Fault DivByZero.
Proof. intros H. unfold quadratic_roots. rewrite H. reflexivity. Qed.

Lemma quadratic_roots_returns a b c :
  wrap64 (2 * a) <> 0 -> exists r, quadratic_roots a b c = Done r.
Proof.
  intros H. unfold quadratic_roots.
  destruct (wrap64_double a) as [k Hk].
  assert (H1 : wrap64 (2 * a) <> -1) by lia.
  rewrite !sdiv_done by assumption. cbn [bind].
  set (d := wrap64 (wrap64 (b * b) - wrap64 (wrap64 (4 * a) * c))).
  destruct (d <? 0).
  - destruct (isqrt_returns (wrap64 (- d)) (wrap64_range _)) as [r ->].
    cbn [bind]. eexists. reflexivity.
  - destruct (isqrt_returns d (wrap64_range _)) as [r ->].
    cbn [bind]. rewrite !sdiv_done by assumption. cbn [bind].
    eexists. reflexivity.
Qed.

(** ** [pow10ll] and the chunks *)

Lemma pow10ll_exact k : 0 <= k <= 18 -> pow10ll k = 10 ^ k.
Proof.
  intros Hk. unfold pow10ll.
  rewrite <- (Z2Nat.id k) at 2 by lia.
  assert (Hn : (Z.to_nat k <= 18)%nat) by lia.
  induction (Z.to_nat k) as [|n IH].
  - reflexivity.
  - rewrite Nat.iter_succ, IH by lia.
    rewrite Nat2Z.inj_succ, Z.pow_succ_r by lia.
    rewrite wrap64_small; [lia|].
    assert (0 < 10 ^ Z.of_nat n) by (apply Z.pow_pos_nonneg; lia).
    assert (10 ^ Z.of_nat n <= 10 ^ 17) by (apply Z.pow_le_mono_r; lia).
    unfold in_ll, min_ll, max_ll. lia.
Qed.

Lemma chunk_div_small d : 0 <= d <= 19 -> chunk_div d = d / 3.
Proof. intros. unfold chunk_div. apply Z.quot_div_nonneg; lia. Qed.

Lemma chunk_rem_small d : 0 <= d <= 19 -> chunk_rem d = d - 2 * (d / 3).
Proof.
  intros H. unfold chunk_rem. rewrite chunk_div_small by assumption.
  assert (0 <= d / 3 <= 6) by (Z.div_mod_to_equations; lia).
  rewrite (wrap32_small (2 * (d / 3))) by lia.
  apply wrap32_small. lia.
Qed.

(** The chunks of a non-negative number with [d] digits. *)
Lemma chunks_nonneg num d :
  0 <= num <= max_ll -> 0 <= d <= 19 ->
  chunks num d =
    Done (num / 10 ^ (d - d / 3),
          (num / 10 ^ (d / 3)) mod 10 ^ (d / 3),
          num mod 10 ^ (d / 3)).
Proof.
  intros Hn Hd. unfold chunks. cbv zeta.
  rewrite chunk_rem_small, chunk_div_small by assumption.
  assert (Hq : 0 <= d / 3 <= 6 /\ d / 3 <= d) by (Z.div_mod_to_equations; lia).
  rewrite wrap32_small by lia.
  replace (d / 3 + (d - 2 * (d / 3))) with (d - d / 3) by lia.
  rewrite !pow10ll_exact by (Z.div_mod_to_equations; lia).
  assert (0 < 10 ^ (d / 3)) by (apply Z.pow_pos_nonneg; lia).
  assert (0 < 10 ^ (d - d / 3)) by (apply Z.pow_pos_nonneg; lia).
  rewrite srem_pos, sdiv_pos by lia. cbn [bind].
  rewrite srem_pos by (try apply Z.div_pos; lia). cbn [bind].
  rewrite sdiv_pos by lia. reflexivity.
Qed.

(** A number of at least three digits has a non-zero leading chunk. *)
Lemma leading_chunk_bounds num d :
  3 <= d -> 10 ^ (d - 1) <= num < 10 ^ d ->
  10 ^ (d / 3 - 1) <= num / 10 ^ (d - d / 3) < 10 ^ (d / 3).
Proof.
  intros Hd [Hlo Hhi].
  assert (Hq : 1 <= d / 3 <= d) by (Z.div_mod_to_equations; lia).
  assert (Hp : 0 < 10 ^ (d - d / 3)) by (apply Z.pow_pos_nonneg; lia).
  split.
  - apply Z.div_le_lower_bound; [assumption|].
    rewrite <- Z.pow_add_r by lia.
    replace (d - d / 3 + (d / 3 - 1)) with (d - 1) by lia. assumption.
  - apply Z.div_lt_upper_bound; [assumption|].
    rewrite <- Z.pow_add_r by lia.
    replace (d - d / 3 + d / 3) with d by lia. assumption.
Qed.

(** ** The quadratic stage of [hash]: where it faults *)

Lemma chunks_negative num : chunks num 0 = Done (num, 0, 0).
Proof.
  unfold chunks. cbv zeta.
  change (chunk_div 0) with 0. change (chunk_rem 0) with 0.
  change (wrap32 (0 + 0)) with 0. change (pow10ll 0) with 1.
  rewrite srem_done, sdiv_done by lia. cbn [bind].
  rewrite srem_done by lia. cbn [bind].
  rewrite Z.quot_1_r, Z.rem_1_r. reflexivity.
Qed.

Lemma digits_of_small num d :
  0 < num <= 99 -> 10 ^ (d - 1) <= num -> 1 <= d -> d <= 2.
Proof.
  intros Hn Hlo Hd.
  destruct (Z.le_gt_cases d 2) as [|Hgt]; [assumption|].
  assert (10 ^ 2 <= 10 ^ (d - 1)) by (apply Z.pow_le_mono_r; lia). lia.
Qed.

Lemma digits_of_large num d :
  100 <= num -> num < 10 ^ d -> 0 <= d -> 3 <= d.
Proof.
  intros Hn Hhi Hd.
  destruct (Z.le_gt_cases 3 d) as [|Hlt]; [assumption|].
  assert (10 ^ d <= 10 ^ 2) by (apply Z.pow_le_mono_r; lia). lia.
Qed.

Lemma quadratic_stage_small num :
  0 <= num <= 99 -> quadratic_stage num = Fault DivByZero.
Proof.
  intros Hn. unfold quadratic_stage.
  assert (Hd : exists d, digit_return num = Done d /\ 1 <= d <= 2 /\
                         num < 10 ^ d).
  { destruct (Z.eq_dec num 0) as [-> | Hn0].
    - exists 1. repeat split; lia.
    - destruct (digit_return_pos num) as (d & Hd & Hr & Hlo & Hhi);
        [unfold max_ll; lia|].
      exists d. split; [assumption|]. split; [|assumption].
      split; [lia|]. apply (digits_of_small num); lia. }
  destruct Hd as (d & -> & Hd & Hhi). cbn [bind].
  rewrite wrap32_small by lia.
  unfold quadratic_division.
  rewrite chunks_nonneg by (unfold max_ll; lia). cbn [bind].
  assert (Hq : d / 3 = 0) by (Z.div_mod_to_equations; lia).
  rewrite Hq, Z.sub_0_r, Z.div_small by lia.
  apply quadratic_roots_fault. reflexivity.
Qed.

Lemma quadratic_stage_large num :
  100 <= num <= max_ll -> exists r, quadratic_stage num = Done r.
Proof.
  intros Hn. unfold quadratic_stage.
  destruct (digit_return_pos num) as (d & -> & Hr & Hlo & Hhi); [lia|].
  cbn [bind]. rewrite wrap32_small by lia.
  assert (Hd : 3 <= d) by (apply (digits_of_large num); lia).
  unfold quadratic_division.
  rewrite chunks_nonneg by lia. cbn [bind].
  destruct (leading_chunk_bounds num d Hd (conj Hlo Hhi)) as [Ha _].
  assert (0 < 10 ^ (d / 3 - 1))
    by (apply Z.pow_pos_nonneg; Z.div_mod_to_equations; lia).
  apply quadratic_roots_returns.
  intros H0. apply wrap64_double_zero in H0.
  - unfold min_ll in H0. lia.
  - unfold in_ll, min_ll. split; [lia|].
    transitivity num; [|lia].
    apply Z.div_le_upper_bound.
    + apply Z.pow_pos_nonneg; Z.div_mod_to_equations; lia.
    + assert (1 <= 10 ^ (d - d / 3))
        by (apply Z.lt_pred_le, Z.pow_pos_nonneg;
            Z.div_mod_to_equations; lia).
      nia.
Qed.

Lemma quadratic_stage_negative num :
  min_ll < num < 0 -> exists r, quadratic_stage num = Done r.
Proof.
  intros Hn. unfold quadratic_stage.
  rewrite digit_return_neg by lia. cbn [bind].
  change (wrap32 0) with 0. unfold quadratic_division.
  rewrite chunks_negative. cbn [bind].
  apply quadratic_roots_returns.
  intros H0. apply wrap64_double_zero in H0.
  - lia.
  - unfold in_ll, max_ll in *. lia.
Qed.

Lemma quadratic_stage_min : quadratic_stage min_ll = Fault DivByZero.
Proof.
  unfold quadratic_stage.
  rewrite digit_return_neg by (unfold min_ll; lia). cbn [bind].
  change (wrap32 0) with 0. unfold quadratic_division.
  rewrite chunks_negative. reflexivity.
Qed.

(** ** The digit packer *)

Lemma fits_ll_true z : fits_ll z = true -> in_ll z.
Proof. unfold fits_ll, in_ll. intros H. apply andb_prop in H. lia. Qed.

Lemma pack_step_exact num ch :
  in_ll (num * slot ch) -> in_ll (num * slot ch + ch) ->
  pack_step num ch = exact_step num ch.
Proof.
  intros H1 H2. unfold pack_step, exact_step, slot in *.
  destruct (ch <? 10); [|destruct (ch <? 100)];
    rewrite (wrap64_small (num * _)) by assumption;
    apply wrap64_small; assumption.
Qed.

Lemma pack_from_exact str : forall num,
  printable str -> no_overflow_from num str = true ->
  pack_from num str = fold_left exact_step (codes str) num.
Proof.
  unfold printable, codes.
  induction str as [|c rest IH]; intros num Hp Hno; [reflexivity|].
  cbn [list_ascii_of_string map] in Hp. inversion Hp as [|? ? Hc Hrest]; subst.
  cbn [pack_from no_overflow_from list_ascii_of_string map fold_left] in *.
  unfold printable_code in Hc.
  destruct (Z.eqb_spec (byte_of c) 0); [lia|].
  apply andb_prop in Hno as [Hno Hrec]. apply andb_prop in Hno as [H1 H2].
  rewrite pack_step_exact by (apply fits_ll_true; assumption).
  apply IH; assumption.
Qed.

Lemma slot_printable ch :
  printable_code ch ->
  (ch < 100 /\ slot ch = 100) \/ (100 <= ch /\ slot ch = 1000).
Proof.
  unfold printable_code, slot. intros H.
  destruct (Z.ltb_spec ch 10); [lia|].
  destruct (Z.ltb_spec ch 100); [left|right]; lia.
Qed.

Lemma exact_step_lower num ch :
  printable_code ch -> 0 <= num -> num * 100 + 32 <= exact_step num ch.
Proof.
  intros Hc Hn. unfold exact_step.
  destruct (slot_printable ch Hc) as [[_ ->] | [_ ->]];
    unfold printable_code in Hc; lia.
Qed.

Lemma exact_snoc l c num :
  fold_left exact_step (l ++ [c]) num
  = exact_step (fold_left exact_step l num) c.
Proof. now rewrite fold_left_app. Qed.

Lemma exact_mono l : forall num,
  Forall printable_code l -> 0 <= num -> num <= fold_left exact_step l num.
Proof.
  induction l as [|c l IH]; intros num Hp Hn; [cbn; lia|].
  inversion Hp as [|? ? Hc Hl]; subst. cbn [fold_left].
  pose proof (exact_step_lower num c Hc Hn).
  specialize (IH (exact_step num c) Hl ltac:(lia)). lia.
Qed.

(** The last slot tells the last character: a two-digit slot ends in
    32..99, a three-digit slot in 00..26. *)
Lemma exact_step_inj n1 c1 n2 c2 :
  printable_code c1 -> printable_code c2 ->
  exact_step n1 c1 = exact_step n2 c2 -> n1 = n2 /\ c1 = c2.
Proof.
  intros H1 H2. unfold exact_step.
  destruct (slot_printable c1 H1) as [[? ->] | [? ->]];
    destruct (slot_printable c2 H2) as [[? ->] | [? ->]];
    unfold printable_code in *; lia.
Qed.

Lemma exact_injective l1 : forall l2,
  Forall printable_code l1 -> Forall printable_code l2 ->
  fold_left exact_step l1 0 = fold_left exact_step l2 0 -> l1 = l2.
Proof.
  induction l1 as [|c1 l1 IH] using rev_ind;
    intros l2 Hp1 Hp2 He; destruct l2 as [|c2 l2 _] using rev_ind.
  - reflexivity.
  - exfalso. rewrite exact_snoc in He.
    change (fold_left exact_step [] 0) with 0 in He.
    apply Forall_app in Hp2 as [Hl2 Hc2]. inversion Hc2 as [|? ? Hc _]; subst.
    pose proof (exact_mono l2 0 Hl2 ltac:(lia)) as Hm.
    pose proof (exact_step_lower _ c2 Hc Hm). lia.
  - exfalso. rewrite exact_snoc in He.
    change (fold_left exact_step [] 0) with 0 in He.
    apply Forall_app in Hp1 as [Hl1 Hc1]. inversion Hc1 as [|? ? Hc _]; subst.
    pose proof (exact_mono l1 0 Hl1 ltac:(lia)) as Hm.
    pose proof (exact_step_lower _ c1 Hc Hm). lia.
  - rewrite !exact_snoc in He.
    apply Forall_app in Hp1 as [Hl1 Hc1]. inversion Hc1 as [|? ? Hc1' _]; subst.
    apply Forall_app in Hp2 as [Hl2 Hc2]. inversion Hc2 as [|? ? Hc2' _]; subst.
    apply exact_step_inj in He as [Hn ->]; try assumption.
    f_equal. apply IH; assumption.
Qed.

Lemma byte_of_inj c1 c2 : byte_of c1 = byte_of c2 -> c1 = c2.
Proof.
  unfold byte_of. intros H. apply N2Z.inj in H.
  rewrite <- (ascii_N_embedding c1), <- (ascii_N_embedding c2). now f_equal.
Qed.

Lemma codes_inj s1 : forall s2, codes s1 = codes s2 -> s1 = s2.
Proof.
  unfold codes. induction s1 as [|c1 s1 IH]; intros [|c2 s2] H;
    cbn in H; try discriminate; [reflexivity|].
  injection H as Hc Hs. f_equal; [now apply byte_of_inj | now apply IH].
Qed.

(** ** The finalizer *)

Lemma lxor_mod_pow2 a b n :
  0 <= n -> (Z.lxor a b) mod 2 ^ n = Z.lxor (a mod 2 ^ n) (b mod 2 ^ n).
Proof.
  intros Hn. apply Z.bits_inj'. intros i Hi.
  rewrite Z.lxor_spec. destruct (Z.lt_ge_cases i n).
  - rewrite !Z.mod_pow2_bits_low by lia. now rewrite Z.lxor_spec.
  - rewrite !Z.mod_pow2_bits_high by lia. reflexivity.
Qed.

Lemma lxor_u64 a b : in_u64 a -> in_u64 b -> in_u64 (Z.lxor a b).
Proof.
  unfold in_u64. intros Ha Hb.
  rewrite <- (Z.mod_small a (2 ^ 64)), <- (Z.mod_small b (2 ^ 64)) by assumption.
  rewrite <- lxor_mod_pow2 by lia. apply Z.mod_pos_bound. lia.
Qed.

Lemma shiftr_u64 a n : 0 <= n -> in_u64 a -> in_u64 (Z.shiftr a n).
Proof.
  unfold in_u64. intros Hn Ha. rewrite Z.shiftr_div_pow2 by assumption.
  assert (0 < 2 ^ n) by (apply Z.pow_pos_nonneg; lia).
  split.
  - apply Z.div_pos; lia.
  - apply Z.div_lt_upper_bound; nia.
Qed.

Lemma xorshift_u64 h : in_u64 h -> in_u64 (Z.lxor h (Z.shiftr h 33)).
Proof. intros H. apply lxor_u64; [assumption|]. apply shiftr_u64; [lia|assumption]. Qed.

Lemma finalizer_u64 num quad : in_u64 (finalizer num quad).
Proof.
  unfold finalizer. cbv zeta.
  apply xorshift_u64, to_u64_range.
Qed.

(** ** The formatter *)

Lemma repeat_snoc_cons {A} (x : A) k l : repeat x k ++ x :: l = x :: repeat x k ++ l.
Proof. induction k as [|k IH]; cbn; [reflexivity|]. now rewrite IH. Qed.

Lemma fixed_hex_zero f : forall acc,
  fixed_hex f 0 acc = repeat "0"%char f ++ acc.
Proof.
  induction f as [|f IH]; intros acc; [reflexivity|].
  cbn [fixed_hex repeat]. change (0 / 16) with 0.
  change (hex_digit (0 mod 16)) with "0"%char.
  rewrite IH. apply repeat_snoc_cons.
Qed.

Lemma to_hex_length f : forall n acc,
  (List.length acc <= List.length (to_hex f n acc) <= f + List.length acc)%nat.
Proof.
  induction f as [|f IH]; intros n acc; cbn [to_hex]; [lia|].
  destruct (n / 16 =? 0).
  - cbn [List.length]. lia.
  - specialize (IH (n / 16) (hex_digit (n mod 16) :: acc)).
    cbn [List.length] in IH. lia.
Qed.

(** Padding the digits of [llx] to the width gives the fixed-width digits. *)
Lemma zero_pad_to_hex f : forall n acc,
  0 <= n < 16 ^ Z.of_nat f ->
  zero_pad (f + List.length acc) (to_hex f n acc) = fixed_hex f n acc.
Proof.
  induction f as [|f IH]; intros n acc Hn.
  - cbn [to_hex fixed_hex Nat.add]. unfold zero_pad.
    now rewrite Nat.sub_diag.
  - cbn [to_hex fixed_hex].
    rewrite Nat2Z.inj_succ, Z.pow_succ_r in Hn by lia.
    destruct (Z.eqb_spec (n / 16) 0) as [Hq | Hq].
    + rewrite Hq, fixed_hex_zero. unfold zero_pad. cbn [List.length].
      replace (S f + List.length acc - S (List.length acc))%nat with f by lia.
      reflexivity.
    + rewrite <- IH.
      * cbn [List.length]. f_equal. lia.
      * split; [apply Z.div_pos; lia|]. apply Z.div_lt_upper_bound; lia.
Qed.

Lemma fixed_hex_length f : forall n acc,
  List.length (fixed_hex f n acc) = (f + List.length acc)%nat.
Proof.
  induction f as [|f IH]; intros n acc; cbn [fixed_hex]; [reflexivity|].
  rewrite IH. cbn [List.length]. lia.
Qed.

Lemma nibble_cases d :
  0 <= d < 16 ->
  In d [0; 1; 2; 3; 4; 5; 6; 7; 8; 9; 10; 11; 12; 13; 14; 15].
Proof. intros H. cbn [In]. lia. Qed.

Lemma hex_value_digit d : 0 <= d < 16 -> hex_value (hex_digit d) = Some d.
Proof.
  intros H. apply nibble_cases in H. cbn [In] in H.
  repeat (destruct H as [<- | H]; [reflexivity|]). contradiction.
Qed.

Lemma lower_hex_digit d : 0 <= d < 16 -> is_lower_hex (hex_digit d) = true.
Proof.
  intros H. apply nibble_cases in H. cbn [In] in H.
  repeat (destruct H as [<- | H]; [reflexivity|]). contradiction.
Qed.

Lemma lower_hex_not_nul c : is_lower_hex c = true -> Ascii.eqb c NUL = false.
Proof.
  intros H. destruct (Ascii.eqb_spec c NUL) as [-> | ]; [discriminate|reflexivity].
Qed.

Lemma fixed_hex_lower f : forall n acc,
  Forall (fun c => is_lower_hex c = true) acc ->
  Forall (fun c => is_lower_hex c = true) (fixed_hex f n acc).
Proof.
  induction f as [|f IH]; intros n acc Hacc; cbn [fixed_hex]; [assumption|].
  apply IH. constructor; [|assumption].
  apply lower_hex_digit, Z.mod_pos_bound. lia.
Qed.

Lemma parse_fixed_hex f : forall n a acc,
  0 <= n < 16 ^ Z.of_nat f ->
  parse_hex_from a (fixed_hex f n acc)
  = parse_hex_from (a * 16 ^ Z.of_nat f + n) acc.
Proof.
  induction f as [|f IH]; intros n a acc Hn.
  - cbn [fixed_hex]. change (Z.of_nat 0) with 0 in *.
    rewrite Z.pow_0_r in *. f_equal. lia.
  - cbn [fixed_hex].
    rewrite Nat2Z.inj_succ, Z.pow_succ_r in * by lia.
    rewrite IH.
    + cbn [parse_hex_from].
      rewrite hex_value_digit by (apply Z.mod_pos_bound; lia).
      f_equal. pose proof (Z.div_mod n 16 ltac:(lia)). lia.
    + split; [apply Z.div_pos; lia|]. apply Z.div_lt_upper_bound; lia.
Qed.

Lemma c_str_terminated l : forall rest,
  Forall (fun c => is_lower_hex c = true) l ->
  c_str (l ++ NUL :: rest) = l.
Proof.
  induction l as [|c l IH]; intros rest Hl.
  - reflexivity.
  - inversion Hl as [|? ? Hc Hl']; subst. cbn [app c_str].
    rewrite (lower_hex_not_nul c Hc). f_equal. now apply IH.
Qed.

Lemma snprintf_digest out h :
  in_u64 h ->
  snprintf_016llx out out_size h = digest_of h ++ NUL :: skipn 17 out.
Proof.
  intros Hh. unfold snprintf_016llx, out_size, digest_of, llx.
  pose proof (zero_pad_to_hex 16 h [] Hh) as Hz.
  cbn [List.length Nat.add] in Hz. rewrite Hz.
  rewrite firstn_all2 by (rewrite fixed_hex_length; cbn; lia).
  rewrite length_app, fixed_hex_length. cbn [List.length Nat.add].
  rewrite <- app_assoc. reflexivity.
Qed.

(** ** Outcomes of [hash] *)

Lemma pack_from_range str : forall num, in_ll num -> in_ll (pack_from num str).
Proof.
  induction str as [|c rest IH]; intros num Hn; cbn [pack_from]; [assumption|].
  destruct (byte_of c =? 0); [assumption|].
  apply IH. unfold pack_step. apply wrap64_range.
Qed.

Lemma pack_range str : in_ll (pack str).
Proof. apply pack_from_range. unfold in_ll, min_ll, max_ll. lia. Qed.

Lemma quadratic_stage_outcomes num :
  in_ll num ->
  (exists r, quadratic_stage num = Done r)
  \/ quadratic_stage num = Fault DivByZero.
Proof.
  intros [Hlo Hhi].
  destruct (Z.eq_dec num min_ll) as [-> | Hmin];
    [right; apply quadratic_stage_min|].
  destruct (Z.lt_ge_cases num 0);
    [left; apply quadratic_stage_negative; lia|].
  destruct (Z.lt_ge_cases num 100);
    [right; apply quadratic_stage_small; lia|].
  left. apply quadratic_stage_large. lia.
Qed.

Lemma hash_done str out quad :
  quadratic_stage (pack str) = Done quad ->
  hash str out
  = Done (digest_of (finalizer (pack str) quad) ++ NUL :: skipn 17 out).
Proof.
  intros Hq. unfold hash. cbv zeta. rewrite Hq. cbn [bind].
  now rewrite snprintf_digest by apply finalizer_u64.
Qed.

Lemma hash_fault str out f :
  quadratic_stage (pack str) = Fault f -> hash str out = Fault f.
Proof. intros Hq. unfold hash. cbv zeta. now rewrite Hq. Qed.

(** [hash] always ends: it returns a buffer, or it divides by zero. *)
Lemma hash_outcomes str out :
  (exists b, hash str out = Done b) \/ hash str out = Fault DivByZero.
Proof.
  destruct (quadratic_stage_outcomes (pack str) (pack_range str)) as [[q Hq] | Hq].
  - left. eexists. apply hash_done. eassumption.
  - right. now apply hash_fault.
Qed.

(** Every accumulator below 100 makes the call fault: the empty string and
    each single character of value below 100 among them. *)
Lemma hash_short_accumulator_faults str out :
  0 <= pack str <= 99 -> hash str out = Fault DivByZero.
Proof. intros H. apply hash_fault. now apply quadratic_stage_small. Qed.

(** * The claims *)

(** ** C1: [hash] on the empty string *)

(** C1. The specification requires [hash] to run to completion on every
    printable string, the empty string included.  On the empty string the
    accumulator is 0, its digit count 1, the leading chunk 0, and
    [quadratic_roots] divides by [2 * 0]: the call faults, whatever the
    buffer holds.  The one-character string "a" (accumulator 97) faults the
    same way. *)
Theorem hash_empty_string_divides_by_zero :
  forall out : buffer,
    hash "" out = Fault DivByZero /\ hash "a" out = Fault DivByZero.
Proof.
  intros out. split; apply hash_fault; reflexivity.
Qed.

(** ** C2: the three chunks *)

(** C2. The chunks do not partition the decimal representation when the
    digit count is not a multiple of three.  The accumulator of "ab" is
    9798, of four digits: [div] is 1 and [rem] is 2, yet the leading chunk
    is the single digit 9, the digit 7 belongs to no chunk, and 9098 (the
    accumulator of "Zb") has the same three chunks. *)
Theorem chunks_drop_digits :
  pack "ab" = 9798 /\ pack "Zb" = 9098 /\
  digit_return 9798 = Done 4 /\ digit_return 9098 = Done 4 /\
  chunk_div 4 = 1 /\ chunk_rem 4 = 2 /\
  chunks 9798 4 = Done (9, 9, 8) /\
  chunks 9098 4 = Done (9, 9, 8).
Proof. repeat split; vm_compute; reflexivity. Qed.

(** ** C3: the range of the scrambled integer *)

(** The chunks of a number of at least three digits. *)
Lemma chunks_of_large num :
  100 <= num <= max_ll ->
  exists d a b c,
    digit_return num = Done d /\ 3 <= d <= 19 /\
    chunks num (wrap32 d) = Done (a, b, c) /\
    1 <= a < 10 ^ 6 /\ 0 <= b < 10 ^ 6 /\ 0 <= c < 10 ^ 6.
Proof.
  intros Hn.
  destruct (digit_return_pos num) as (d & Hd & Hr & Hlo & Hhi); [lia|].
  assert (H3 : 3 <= d) by (apply (digits_of_large num); lia).
  assert (Hq : 1 <= d / 3 <= 6) by (Z.div_mod_to_equations; lia).
  assert (Hp : 0 < 10 ^ (d / 3)) by (apply Z.pow_pos_nonneg; lia).
  assert (Hp6 : 10 ^ (d / 3) <= 10 ^ 6) by (apply Z.pow_le_mono_r; lia).
  assert (Hp1 : 0 < 10 ^ (d / 3 - 1)) by (apply Z.pow_pos_nonneg; lia).
  destruct (leading_chunk_bounds num d H3 (conj Hlo Hhi)) as [Ha1 Ha2].
  pose proof (Z.mod_pos_bound (num / 10 ^ (d / 3)) (10 ^ (d / 3)) Hp).
  pose proof (Z.mod_pos_bound num (10 ^ (d / 3)) Hp).
  exists d, (num / 10 ^ (d - d / 3)),
    ((num / 10 ^ (d / 3)) mod 10 ^ (d / 3)), (num mod 10 ^ (d / 3)).
  rewrite wrap32_small by lia.
  rewrite chunks_nonneg by lia.
  repeat split; try assumption; lia.
Qed.

Ltac in_range := unfold in_ll, min_ll, max_ll; nia.

(** [base = (-b) / (2 * a)] for a positive leading coefficient. *)
Lemma base_term a b :
  1 <= a -> 0 <= b ->
  Z.quot (- b) (2 * a) = - (b / (2 * a)).
Proof.
  intros Ha Hb. rewrite Z.quot_opp_l by lia.
  now rewrite Z.quot_div_nonneg by lia.
Qed.

Lemma abs_part z m :
  0 <= z <= m -> m <= max_ll ->
  (if - z <? 0 then wrap64 (- - z) else - z) = z.
Proof.
  intros Hz Hm. destruct (Z.ltb_spec (- z) 0).
  - rewrite wrap64_small by (unfold in_ll, min_ll, max_ll in *; lia). lia.
  - lia.
Qed.

(** On coefficients of at most six digits, with [a >= 1], nothing wraps
    around in [quadratic_roots]. *)
Lemma quadratic_roots_range a b c :
  1 <= a < 1000000 -> 0 <= b < 1000000 -> 0 <= c < 1000000 ->
  exists real imag,
    quadratic_roots a b c = Done (real * 1000000 + imag) /\
    ((0 <= real <= 499999 /\ 0 <= imag <= 1999999)
     \/ (0 <= real <= 999999 /\ 0 <= imag <= 499999)).
Proof.
  intros Ha Hb Hc. unfold quadratic_roots.
  assert (Hbb : 0 <= b * b < 1000000000000) by nia.
  assert (Hac : 0 <= 4 * a * c < 4000000000000) by nia.
  rewrite (wrap64_small (b * b)) by in_range.
  rewrite (wrap64_small (4 * a)) by in_range.
  rewrite (wrap64_small (4 * a * c)) by in_range.
  rewrite (wrap64_small (b * b - 4 * a * c)) by in_range.
  rewrite (wrap64_small (- b)) by in_range.
  rewrite (wrap64_small (2 * a)) by in_range.
  rewrite !sdiv_done by lia. cbn [bind].
  rewrite base_term by lia.
  set (beta := b / (2 * a)).
  assert (Hbeta : 0 <= beta <= 499999).
  { subst beta. split; [apply Z.div_pos; lia|].
    apply Z.lt_succ_r. apply Z.div_lt_upper_bound; lia. }
  assert (Hbeta2 : 2 * beta <= b).
  { subst beta. pose proof (Z.mul_div_le b (2 * a) ltac:(lia)). nia. }
  set (disc := b * b - 4 * a * c) in *.
  destruct (Z.ltb_spec disc 0) as [Hneg | Hpos].
  - rewrite (wrap64_small (- disc)) by in_range.
    rewrite isqrt_floor by (unfold max_ll; lia). cbn [bind].
    assert (Hs : 0 <= Z.sqrt (- disc) <= 1999999).
    { split; [apply Z.sqrt_nonneg|]. apply Z.lt_succ_r.
      apply Z.sqrt_lt_square; lia. }
    rewrite (abs_part beta 499999) by (unfold max_ll; lia).
    destruct (Z.ltb_spec (Z.sqrt (- disc)) 0); [lia|].
    rewrite (wrap64_small (beta * 1000000)) by in_range.
    rewrite wrap64_small by in_range.
    exists beta, (Z.sqrt (- disc)). split; [reflexivity|]. left. lia.
  - rewrite isqrt_floor by (unfold max_ll; lia). cbn [bind].
    assert (Hs : 0 <= Z.sqrt disc <= b).
    { split; [apply Z.sqrt_nonneg|]. apply Z.lt_succ_r.
      apply Z.sqrt_lt_square; [lia | lia | nia]. }
    rewrite sdiv_done by lia. cbn [bind].
    rewrite Z.quot_div_nonneg by lia.
    set (q := Z.sqrt disc / (2 * a)).
    assert (Hq : 0 <= q <= beta).
    { subst q beta. split; [apply Z.div_pos; lia|].
      apply Z.div_le_mono; lia. }
    rewrite (wrap64_small (- beta + q)) by in_range.
    rewrite (wrap64_small (- beta - q)) by in_range.
    destruct (Z.ltb_spec (- beta + q) (- beta - q)) as [Hlt | Hge].
    + assert (q = 0) by lia. subst q.
      lia.
    + replace (- beta - q) with (- (beta + q)) by lia.
      replace (- beta + q) with (- (beta - q)) by lia.
      rewrite (abs_part (beta + q) 999999) by (unfold max_ll; lia).
      rewrite (abs_part (beta - q) 499999) by (unfold max_ll; lia).
      rewrite (wrap64_small ((beta + q) * 1000000)) by in_range.
      rewrite wrap64_small by in_range.
      exists (beta + q), (beta - q). split; [reflexivity|]. right. lia.
Qed.

(** C3. The quadratic gadget does not return a positive integer of two
    six-digit parts for every packed integer.  On 100 (the accumulator of
    "d", three digits) the chunks are (1, 0, 0), both roots are 0 and the
    gadget returns 0, which is not positive; on the 18-digit accumulator of
    "ccc   ccc", packed without overflow, the chunks are
    (999999, 323232, 999999) and the second part, 1973705, has seven
    digits; on 97 (the accumulator of "a") the leading chunk is 0 and no
    integer is returned at all. *)
Lemma quadratic_division_not_positive :
  pack "d" = 100 /\
  digit_return 100 = Done 3 /\
  chunks 100 3 = Done (1, 0, 0) /\
  quadratic_division 100 3 = Done 0 /\
  pack "ccc   ccc" = 999999323232999999 /\
  no_overflow "ccc   ccc" = true /\
  digit_return 999999323232999999 = Done 18 /\
  chunks 999999323232999999 18 = Done (999999, 323232, 999999) /\
  quadratic_division 999999323232999999 18 = Done (0 * 1000000 + 1973705) /\
  pack "a" = 97 /\
  digit_return 97 = Done 2 /\
  quadratic_division 97 2 = Fault DivByZero.
Proof. repeat split; vm_compute; reflexivity. Qed.

(** From 100 on the upper bound itself holds: the result lies between 0
    and 999999999999. *)
Lemma quadratic_division_upper_bound num d :
  100 <= num <= max_ll ->
  digit_return num = Done d ->
  exists r, quadratic_division num (wrap32 d) = Done r /\
            0 <= r <= 999999999999.
Proof.
  intros Hn Hd.
  destruct (chunks_of_large num Hn)
    as (d' & a & b & c & Hd' & _ & Hch & Ha & Hb & Hc).
  rewrite Hd in Hd'. injection Hd' as <-.
  unfold quadratic_division. rewrite Hch. cbn [bind].
  change (10 ^ 6) with 1000000 in *.
  destruct (quadratic_roots_range a b c Ha Hb Hc)
    as (real & imag & -> & Hparts).
  eexists. split; [reflexivity|]. lia.
Qed.

(** ** C4: [isqrt] *)

(** C4, counterexample.  At [LLONG_MAX] the sum [x + 1] wraps around and
    [isqrt] returns [-2^62] instead of the square root 3037000499. *)
Lemma isqrt_max_ll_not_floor :
  0 <= max_ll /\ in_ll max_ll /\
  isqrt max_ll = Done (- 2 ^ 62) /\
  Z.sqrt max_ll = 3037000499 /\
  isqrt max_ll <> Done (Z.sqrt max_ll).
Proof.
  repeat split; try (vm_compute; reflexivity); try (vm_compute; discriminate).
Qed.

(** C4, amended.  For every [n] with [0 <= n < LLONG_MAX], [isqrt n]
    terminates without a fault and returns the floor of the square root of
    [n]: the [r >= 0] with [r * r <= n < (r + 1) * (r + 1)]; for [n = 0]
    it returns 0. *)
Theorem isqrt_floor_sqrt :
  forall n : Z,
    0 <= n < max_ll ->
    exists r, isqrt n = Done r /\ r = Z.sqrt n /\
              0 <= r /\ r * r <= n < (r + 1) * (r + 1) /\
              (n = 0 -> r = 0).
Proof.
  intros n Hn. exists (Z.sqrt n).
  split; [now apply isqrt_floor|]. split; [reflexivity|].
  split; [apply Z.sqrt_nonneg|]. split.
  - pose proof (Z.sqrt_spec n (proj1 Hn)) as Hs. unfold Z.succ in Hs. exact Hs.
  - intros ->. reflexivity.
Qed.

Lemma isqrt_floor_sqrt_witness :
  0 <= 17 < max_ll /\
  exists r, isqrt 17 = Done r /\ r = Z.sqrt 17 /\
            0 <= r /\ r * r <= 17 < (r + 1) * (r + 1) /\
            (17 = 0 -> r = 0).
Proof.
  split; [unfold max_ll; lia|].
  apply (isqrt_floor_sqrt 17). unfold max_ll. lia.
Defined.

(** ** C5: the finalizer *)

(** C5. For every packed integer and every scrambled value, the mixed
    value that [hash] computes is the cascade of the specification, with
    every product taken modulo [2^64], and it is a 64-bit unsigned value. *)
Theorem finalizer_is_cascade :
  forall num quad : Z,
    finalizer num quad = spec_finalizer num quad /\
    in_u64 (finalizer num quad).
Proof.
  intros num quad. split; [|apply finalizer_u64].
  unfold finalizer, spec_finalizer, to_u64, K_phi, K_mix1, K_mix2. cbv zeta.
  rewrite (lxor_mod_pow2 num) by lia.
  rewrite (Z.mul_mod_idemp_l quad) by lia.
  reflexivity.
Qed.

(** ** C6: the formatter *)

(** The formatter alone.  For every 64-bit value [h], whatever the buffer
    held, the string stored is 16 characters long, all of them lowercase
    hexadecimal digits; it is the hexadecimal numeral of [h] padded with
    zeros on the left; a NUL follows it in the buffer; and read back as a
    hexadecimal numeral it is [h]. *)
Lemma format_sixteen_hex_digits :
  forall (h : Z) (out : buffer),
    in_u64 h ->
    let out' := snprintf_016llx out out_size h in
    let digest := c_str out' in
    List.length digest = 16%nat /\
    Forall (fun c => is_lower_hex c = true) digest /\
    digest = zero_pad 16 (llx h) /\
    firstn 17 out' = digest ++ [NUL] /\
    parse_hex digest = Some h.
Proof.
  intros h out Hh. cbv zeta. rewrite snprintf_digest by assumption.
  assert (Hlow : Forall (fun c => is_lower_hex c = true) (digest_of h))
    by (apply fixed_hex_lower; constructor).
  rewrite c_str_terminated by assumption.
  assert (Hlen : List.length (digest_of h) = 16%nat)
    by (unfold digest_of; now rewrite fixed_hex_length).
  split; [|split; [|split; [|split]]].
  - assumption.
  - assumption.
  - symmetry. apply (zero_pad_to_hex 16 h []). assumption.
  - change (digest_of h ++ NUL :: skipn 17 out)
      with (digest_of h ++ [NUL] ++ skipn 17 out).
    rewrite app_assoc.
    replace 17%nat with (List.length (digest_of h ++ [NUL]) + 0)%nat
      by (rewrite length_app, Hlen; reflexivity).
    rewrite firstn_app_2. cbn [firstn]. apply app_nil_r.
  - unfold parse_hex, digest_of.
    rewrite (parse_fixed_hex 16 h 0 []) by assumption.
    cbn [parse_hex_from]. f_equal; lia.
Qed.

Lemma format_sixteen_hex_digits_witness :
  in_u64 255 /\
  let out' := snprintf_016llx blank out_size 255 in
  let digest := c_str out' in
  List.length digest = 16%nat /\
  Forall (fun c => is_lower_hex c = true) digest /\
  digest = zero_pad 16 (llx 255) /\
  firstn 17 out' = digest ++ [NUL] /\
  parse_hex digest = Some 255.
Proof.
  split; [unfold in_u64; lia|].
  apply (format_sixteen_hex_digits 255 blank). unfold in_u64. lia.
Defined.

(** C6. What [hash] returns.  On the empty string the call divides by zero
    before the formatter is reached, and no string is returned.  A call on
    any string either faults that way or returns the buffer in which the
    mixed value [h] of the finalizer stands as exactly 16 lowercase
    hexadecimal digits, padded with zeros, followed by a NUL, and these 16
    digits read back as [h]. *)
Theorem hash_returns_sixteen_hex_digits_or_faults :
  forall (str : string) (out : buffer),
    hash "" out = Fault DivByZero /\
    returned (hash "" out) = Fault DivByZero /\
    (hash str out = Fault DivByZero \/
     exists quad out',
       quadratic_stage (pack str) = Done quad /\
       hash str out = Done out' /\
       returned (hash str out) = Done (c_str out') /\
       let h := finalizer (pack str) quad in
       let digest := c_str out' in
       in_u64 h /\
       List.length digest = 16%nat /\
       Forall (fun c => is_lower_hex c = true) digest /\
       digest = zero_pad 16 (llx h) /\
       firstn 17 out' = digest ++ [NUL] /\
       parse_hex digest = Some h).
Proof.
  intros str out.
  split; [apply hash_fault; reflexivity|].
  split; [unfold returned; rewrite (hash_fault "" out DivByZero);
          reflexivity|].
  destruct (quadratic_stage_outcomes (pack str) (pack_range str))
    as [[q Hq] | Hq]; [right | left; now apply hash_fault].
  pose proof (finalizer_u64 (pack str) q) as Hu.
  exists q, (snprintf_016llx out out_size (finalizer (pack str) q)).
  assert (Hh : hash str out
               = Done (snprintf_016llx out out_size (finalizer (pack str) q)))
    by (unfold hash; cbv zeta; now rewrite Hq).
  split; [assumption|]. split; [assumption|].
  split; [unfold returned; now rewrite Hh|].
  cbv zeta. split; [assumption|].
  exact (format_sixteen_hex_digits (finalizer (pack str) q) out Hu).
Qed.

(** ** C7: the digit packer is injective *)

(** C7. Two distinct strings of printable characters whose packing never
    leaves the range of [long long] have distinct packed integers. *)
Theorem pack_injective :
  forall s1 s2 : string,
    printable s1 -> printable s2 ->
    no_overflow s1 = true -> no_overflow s2 = true ->
    s1 <> s2 -> pack s1 <> pack s2.
Proof.
  intros s1 s2 Hp1 Hp2 Hn1 Hn2 Hne He. apply Hne.
  unfold pack, no_overflow in *.
  rewrite !pack_from_exact in He by assumption.
  apply codes_inj. apply exact_injective; assumption.
Qed.

Lemma pack_injective_witness :
  printable "ab" /\ printable "ba" /\
  no_overflow "ab" = true /\ no_overflow "ba" = true /\
  "ab"%string <> "ba"%string /\ pack "ab" <> pack "ba".
Proof.
  assert (Hab : printable "ab")
    by (repeat constructor; vm_compute; discriminate).
  assert (Hba : printable "ba")
    by (repeat constructor; vm_compute; discriminate).
  split; [exact Hab|]. split; [exact Hba|].
  split; [reflexivity|]. split; [reflexivity|].
  split; [discriminate|].
  apply (pack_injective "ab" "ba");
    [exact Hab | exact Hba | reflexivity | reflexivity | discriminate].
Defined.

(** ** C8: the split of the digit count *)

(** C8. For every digit count [digits >= 1] that an [int] can hold,
    [rem + 2 * div = digits] and [rem >= div]. *)
Theorem chunk_split_consistent :
  forall digits : Z,
    1 <= digits <= 2 ^ 31 - 1 ->
    chunk_rem digits + 2 * chunk_div digits = digits /\
    chunk_rem digits >= chunk_div digits.
Proof.
  intros digits Hd. unfold chunk_rem, chunk_div.
  rewrite Z.quot_div_nonneg by lia.
  assert (Hq : 0 <= digits / 3 /\ 3 * (digits / 3) <= digits)
    by (Z.div_mod_to_equations; lia).
  rewrite (wrap32_small (2 * (digits / 3))) by lia.
  rewrite wrap32_small by lia.
  Z.div_mod_to_equations. lia.
Qed.

Lemma chunk_split_consistent_witness :
  1 <= 4 <= 2 ^ 31 - 1 /\
  chunk_rem 4 + 2 * chunk_div 4 = 4 /\ chunk_rem 4 >= chunk_div 4.
Proof.
  split; [lia|]. apply (chunk_split_consistent 4). lia.
Defined.

(** ** C9: determinism *)


(** ** C10: where the quadratic stage divides by zero *)

Lemma pack_lower_bound str :
  printable str -> no_overflow str = true ->
  (2 <= String.length str)%nat
  \/ (exists c, str = String c EmptyString /\ 100 <= byte_of c) ->
  100 <= pack str.
Proof.
  intros Hp Hno Hlen. unfold pack, no_overflow in *.
  rewrite pack_from_exact by assumption.
  unfold printable in Hp.
  destruct Hlen as [Hlen | (c & -> & Hc)].
  - destruct str as [|c1 [|c2 rest]]; cbn [String.length] in Hlen; try lia.
    unfold codes in *. cbn [list_ascii_of_string map fold_left] in *.
    inversion Hp as [|? ? Hc1 Hp']; subst.
    inversion Hp' as [|? ? Hc2 Hrest]; subst.
    pose proof (exact_step_lower 0 (byte_of c1) Hc1 ltac:(lia)) as H1.
    pose proof (exact_step_lower (exact_step 0 (byte_of c1)) (byte_of c2)
                  Hc2 ltac:(lia)) as H2.
    pose proof (exact_mono (map byte_of (list_ascii_of_string rest))
                  (exact_step (exact_step 0 (byte_of c1)) (byte_of c2))
                  Hrest ltac:(lia)) as H3.
    lia.
  - unfold codes. cbn [list_ascii_of_string map fold_left].
    unfold exact_step. lia.
Qed.

(** The accumulator of a string packed without overflow is not negative,
    whatever its bytes. *)
Lemma pack_from_nonneg str : forall num,
  0 <= num -> no_overflow_from num str = true -> 0 <= pack_from num str.
Proof.
  induction str as [|c rest IH]; intros num Hn Hno; [assumption|].
  cbn [pack_from no_overflow_from] in *.
  destruct (byte_of c =? 0); [assumption|].
  apply andb_prop in Hno as [Hno Hrec]. apply andb_prop in Hno as [H1 H2].
  rewrite pack_step_exact by (apply fits_ll_true; assumption).
  apply IH; [|exact Hrec].
  unfold exact_step.
  assert (0 <= byte_of c) by (unfold byte_of; lia).
  assert (0 < slot (byte_of c))
    by (unfold slot; destruct (byte_of c <? 10);
        [|destruct (byte_of c <? 100)]; lia).
  nia.
Qed.

(** From 100 on, the leading chunk that [quadratic_roots] receives is not
    0, and the stage returns what [quadratic_roots] returns. *)
Lemma quadratic_stage_invocation num :
  100 <= num <= max_ll ->
  exists d a b c quad,
    digit_return num = Done d /\
    chunks num (wrap32 d) = Done (a, b, c) /\ a <> 0 /\
    quadratic_roots a b c = Done quad /\
    quadratic_stage num = Done quad.
Proof.
  intros Hn.
  destruct (chunks_of_large num Hn)
    as (d & a & b & c & Hd & _ & Hch & Ha & Hb & Hc).
  change (10 ^ 6) with 1000000 in *.
  destruct (quadratic_roots_range a b c Ha Hb Hc) as (re & im & Hq & _).
  exists d, a, b, c, (re * 1000000 + im).
  split; [assumption|]. split; [assumption|]. split; [lia|].
  split; [assumption|].
  unfold quadratic_stage, quadratic_division.
  rewrite Hd. cbn [bind]. rewrite Hch. cbn [bind]. assumption.
Qed.

(** C10, counterexample.  The accumulator of the 21 letters of [s_wrap0]
    overflows and comes back to 0: this printable string of more than two
    characters makes [hash] divide by zero. *)
Lemma long_strings_divide_by_zero :
  printable s_wrap0 /\ (2 <= String.length s_wrap0)%nat /\
  no_overflow s_wrap0 = false /\
  pack s_wrap0 = 0 /\
  quadratic_stage (pack s_wrap0) = Fault DivByZero /\
  hash s_wrap0 blank = Fault DivByZero.
Proof.
  assert (H0 : printable s_wrap0)
    by (repeat constructor; vm_compute; discriminate).
  split; [exact H0|]. split; [vm_compute; lia|].
  split; [vm_compute; reflexivity|].
  split; [vm_compute; reflexivity|].
  split; vm_compute; reflexivity.
Qed.

(** C10, amended.  For an input packed without overflow the accumulator
    lies in [0, LLONG_MAX], and on such accumulators the quadratic stage
    divides by zero exactly on 0..99.  On every accumulator from 100 on
    [quadratic_roots] receives a leading coefficient [a <> 0] and the stage
    returns.  In particular a printable string packed without overflow
    that has at least two characters, or one character of value at least
    100, has an accumulator of at least 100, and [hash] returns on it. *)
Theorem quadratic_stage_divides_by_zero_iff :
  forall (num : Z) (str : string),
    0 <= num <= max_ll -> no_overflow str = true ->
    (quadratic_stage num = Fault DivByZero <-> num <= 99) /\
    (100 <= num ->
     exists d a b c quad,
       digit_return num = Done d /\
       chunks num (wrap32 d) = Done (a, b, c) /\ a <> 0 /\
       quadratic_roots a b c = Done quad /\
       quadratic_stage num = Done quad) /\
    0 <= pack str <= max_ll /\
    (printable str ->
     (2 <= String.length str)%nat
     \/ (exists c, str = String c EmptyString /\ 100 <= byte_of c) ->
     100 <= pack str /\
     (exists d a b c quad,
        digit_return (pack str) = Done d /\
        chunks (pack str) (wrap32 d) = Done (a, b, c) /\ a <> 0 /\
        quadratic_roots a b c = Done quad /\
        quadratic_stage (pack str) = Done quad) /\
     (forall out, exists b, hash str out = Done b)).
Proof.
  intros num str Hnum Hno.
  pose proof (pack_range str) as [_ Hhi].
  split; [|split; [|split]].
  - split.
    + intros Hf.
      destruct (Z.le_gt_cases num 99) as [|Hbig]; [assumption|].
      destruct (quadratic_stage_large num ltac:(lia)) as [r Hr]. congruence.
    + intros Hs. apply quadratic_stage_small. lia.
  - intros Hbig. apply quadratic_stage_invocation. lia.
  - split; [|assumption]. apply pack_from_nonneg; [lia | exact Hno].
  - intros Hp Hlen.
    pose proof (pack_lower_bound str Hp Hno Hlen) as Hge.
    destruct (quadratic_stage_invocation (pack str) (conj Hge Hhi))
      as (d & a & b & c & q & Hd & Hc & Ha & Hr & Hq).
    split; [assumption|]. split.
    + exists d, a, b, c, q. repeat split; assumption.
    + intros out. eexists. apply (hash_done str out q Hq).
Qed.

Lemma quadratic_stage_divides_by_zero_iff_witness :
  0 <= 5 <= max_ll /\ no_overflow "ab" = true /\
  (quadratic_stage 5 = Fault DivByZero <-> 5 <= 99) /\
  (100 <= 5 ->
   exists d a b c quad,
     digit_return 5 = Done d /\
     chunks 5 (wrap32 d) = Done (a, b, c) /\ a <> 0 /\
     quadratic_roots a b c = Done quad /\
     quadratic_stage 5 = Done quad) /\
  0 <= pack "ab" <= max_ll /\
  (printable "ab" ->
   (2 <= String.length "ab")%nat
   \/ (exists c, "ab"%string = String c EmptyString /\ 100 <= byte_of c) ->
   100 <= pack "ab" /\
   (exists d a b c quad,
      digit_return (pack "ab") = Done d /\
      chunks (pack "ab") (wrap32 d) = Done (a, b, c) /\ a <> 0 /\
      quadratic_roots a b c = Done quad /\
      quadratic_stage (pack "ab") = Done quad) /\
   (forall out, exists b, hash "ab" out = Done b)).
Proof.
  assert (H5 : 0 <= 5 <= max_ll) by (unfold max_ll; lia).
  split; [exact H5|]. split; [reflexivity|].
  apply (quadratic_stage_divides_by_zero_iff 5 "ab");
    [exact H5 | reflexivity].
Defined.

(** * Further properties of the code *)

(** ** [digit_return] *)

(** X1. On a positive [long long], [digit_return] ends and returns the
    number [d] of decimal digits, between 1 and 19:
    [10^(d-1) <= num < 10^d]. *)
Theorem digit_return_counts_digits :
  forall num : Z,
    0 < num <= max_ll ->
    exists d, digit_return num = Done d /\ 1 <= d <= 19 /\
              10 ^ (d - 1) <= num < 10 ^ d.
Proof. intros num Hn. now apply digit_return_pos. Qed.

Lemma digit_return_counts_digits_witness :
  0 < 9798 <= max_ll /\
  exists d, digit_return 9798 = Done d /\ 1 <= d <= 19 /\
            10 ^ (d - 1) <= 9798 < 10 ^ d.
Proof.
  split; [unfold max_ll; lia|].
  apply (digit_return_counts_digits 9798). unfold max_ll. lia.
Defined.

(** X2. On a negative number the loop of [digit_return] is not entered
    and the count is 0, not the number of digits of the magnitude. *)
Theorem digit_return_negative_is_zero :
  forall num : Z, num < 0 -> digit_return num = Done 0.
Proof.
  intros num Hn. unfold digit_return.
  destruct (Z.eqb_spec num 0) as [H0 | _]; [lia|].
  rewrite while_exit; [reflexivity|]. apply Z.ltb_ge. lia.
Qed.

Lemma digit_return_negative_is_zero_witness :
  -12345 < 0 /\ digit_return (-12345) = Done 0.
Proof.
  split; [lia|]. apply (digit_return_negative_is_zero (-12345)). lia.
Defined.

(** ** [pow10ll] *)

Lemma wrap64_congr x q : wrap64 (x + q * 2 ^ 64) = wrap64 x.
Proof.
  unfold wrap64.
  replace (x + q * 2 ^ 64 + 2 ^ 63) with (x + 2 ^ 63 + q * 2 ^ 64) by lia.
  now rewrite Z.mod_add by lia.
Qed.

Lemma wrap64_mul_l x k : wrap64 (wrap64 x * k) = wrap64 (x * k).
Proof.
  assert (Hx : wrap64 x = x + (- ((x + 2 ^ 63) / 2 ^ 64)) * 2 ^ 64).
  { unfold wrap64.
    pose proof (Z.div_mod (x + 2 ^ 63) (2 ^ 64) ltac:(lia)). lia. }
  rewrite Hx.
  replace ((x + - ((x + 2 ^ 63) / 2 ^ 64) * 2 ^ 64) * k)
    with (x * k + (- ((x + 2 ^ 63) / 2 ^ 64) * k) * 2 ^ 64) by ring.
  apply wrap64_congr.
Qed.

Lemma pow10ll_wrap_nat k :
  Nat.iter k (fun r => wrap64 (r * 10)) 1 = wrap64 (10 ^ Z.of_nat k).
Proof.
  induction k as [|k IH]; [reflexivity|].
  rewrite Nat.iter_succ, IH, wrap64_mul_l.
  now rewrite Nat2Z.inj_succ, Z.pow_succ_r, (Z.mul_comm 10) by lia.
Qed.

(** X3. [pow10ll n] is 1 for every [n <= 0]; for [0 <= n <= 18] it is
    [10^n] exactly, a positive [long long]. *)
Theorem pow10ll_power_of_ten :
  forall n : Z,
    n <= 18 ->
    pow10ll n = 10 ^ Z.max n 0 /\ 0 < pow10ll n <= max_ll.
Proof.
  intros n Hn.
  assert (He : pow10ll n = 10 ^ Z.max n 0).
  { destruct (Z.le_gt_cases n 0) as [Hle | Hgt].
    - unfold pow10ll. replace (Z.to_nat n) with 0%nat by lia.
      rewrite Z.max_r by assumption. reflexivity.
    - rewrite Z.max_l by lia. apply pow10ll_exact. lia. }
  split; [assumption|]. rewrite He.
  assert (0 < 10 ^ Z.max n 0) by (apply Z.pow_pos_nonneg; lia).
  assert (10 ^ Z.max n 0 <= 10 ^ 18) by (apply Z.pow_le_mono_r; lia).
  unfold max_ll. lia.
Qed.

Lemma pow10ll_power_of_ten_witness :
  13 <= 18 /\ pow10ll 13 = 10 ^ Z.max 13 0 /\ 0 < pow10ll 13 <= max_ll.
Proof.
  split; [lia|]. apply (pow10ll_power_of_ten 13). lia.
Defined.

(** X4. For every [n >= 0], [pow10ll n] is [10^n] wrapped around to 64
    bits; from [n = 64] on, where [2^64] divides [10^n], it is 0. *)
Theorem pow10ll_wraps_around :
  forall n : Z,
    0 <= n ->
    pow10ll n = wrap64 (10 ^ n) /\ (64 <= n -> pow10ll n = 0).
Proof.
  intros n Hn.
  assert (He : pow10ll n = wrap64 (10 ^ n)).
  { unfold pow10ll. rewrite pow10ll_wrap_nat, Z2Nat.id by assumption.
    reflexivity. }
  split; [assumption|]. intros H64. rewrite He.
  replace n with (64 + (n - 64)) by lia.
  rewrite Z.pow_add_r by lia.
  replace (10 ^ 64) with (5 ^ 64 * 2 ^ 64) by (vm_compute; reflexivity).
  replace (5 ^ 64 * 2 ^ 64 * 10 ^ (n - 64))
    with (0 + (5 ^ 64 * 10 ^ (n - 64)) * 2 ^ 64) by ring.
  rewrite wrap64_congr. reflexivity.
Qed.

Lemma pow10ll_wraps_around_witness :
  0 <= 19 /\ pow10ll 19 = wrap64 (10 ^ 19) /\ (64 <= 19 -> pow10ll 19 = 0).
Proof.
  split; [lia|]. apply (pow10ll_wraps_around 19). lia.
Defined.

(** ** [isqrt] *)

Lemma isqrt_negative n : in_ll n -> n < 0 -> isqrt n = Done n.
Proof.
  intros [Hlo Hhi] Hneg. unfold isqrt. cbv zeta.
  rewrite wrap64_small by (unfold in_ll, min_ll, max_ll in *; lia).
  rewrite sdiv_done by lia. cbn [bind].
  rewrite while_exit; [reflexivity|].
  apply Z.ltb_ge.
  assert (Hq : Z.quot (- (n + 1)) 2 <= - (n + 1)).
  { rewrite Z.quot_div_nonneg by lia. apply Z.div_le_upper_bound; lia. }
  pose proof (Z.quot_opp_l (- (n + 1)) 2 ltac:(lia)) as Ho.
  rewrite Z.opp_involutive in Ho. lia.
Qed.

(** X5. On a negative argument the loop of [isqrt] is not entered and the
    argument itself comes back. *)
Theorem isqrt_negative_is_identity :
  forall n : Z, in_ll n -> n < 0 -> isqrt n = Done n.
Proof. intros n Hn Hneg. now apply isqrt_negative. Qed.

Lemma isqrt_negative_is_identity_witness :
  in_ll (-5) /\ -5 < 0 /\ isqrt (-5) = Done (-5).
Proof.
  assert (H : in_ll (-5)) by (unfold in_ll, min_ll, max_ll; lia).
  split; [exact H|]. split; [lia|].
  apply (isqrt_negative_is_identity (-5)); [exact H | lia].
Defined.

(** X6. Whatever [long long] it is given, [isqrt] neither divides by zero
    nor loops for ever: it returns a [long long]. *)
Theorem isqrt_never_faults :
  forall n : Z, in_ll n -> exists r, isqrt n = Done r /\ in_ll r.
Proof.
  intros n Hn. destruct (isqrt_returns n Hn) as [r Hr].
  exists r. split; [assumption|].
  destruct Hn as [Hlo Hhi].
  destruct (Z.lt_ge_cases n 0) as [Hneg | Hpos].
  - rewrite isqrt_negative in Hr by (try split; assumption).
    injection Hr as <-. split; assumption.
  - destruct (Z.eq_dec n max_ll) as [-> | Hne].
    + vm_compute in Hr. injection Hr as <-.
      unfold in_ll, min_ll, max_ll. lia.
    + rewrite isqrt_floor in Hr by lia. injection Hr as <-.
      pose proof (Z.sqrt_nonneg n). pose proof (Z.sqrt_le_lin n Hpos).
      unfold in_ll, min_ll in *. lia.
Qed.

Lemma isqrt_never_faults_witness :
  in_ll max_ll /\ exists r, isqrt max_ll = Done r /\ in_ll r.
Proof.
  assert (H : in_ll max_ll) by (unfold in_ll, min_ll, max_ll; lia).
  split; [exact H|]. apply (isqrt_never_faults max_ll). exact H.
Defined.

(** X7. [isqrt] undoes squaring: the root of [k * k] is [k], for every
    [k >= 0] whose square is below [LLONG_MAX]. *)
Theorem isqrt_of_square :
  forall k : Z,
    0 <= k -> k * k < max_ll -> isqrt (k * k) = Done k.
Proof.
  intros k Hk Hsq. rewrite isqrt_floor by nia.
  now rewrite Z.sqrt_square by assumption.
Qed.

Lemma isqrt_of_square_witness :
  0 <= 3037000499 /\ 3037000499 * 3037000499 < max_ll /\
  isqrt (3037000499 * 3037000499) = Done 3037000499.
Proof.
  split; [lia|]. split; [unfold max_ll; lia|].
  apply (isqrt_of_square 3037000499); [lia | unfold max_ll; lia].
Defined.

(** ** [quadratic_roots] *)

(** X8. Whatever [b] and [c] are, [quadratic_roots] divides by zero
    exactly when the leading coefficient is 0 or [LLONG_MIN] (where [2 * a]
    wraps around to 0); on every other [a] it returns. *)
Theorem quadratic_roots_faults_iff :
  forall a b c : Z,
    in_ll a ->
    (quadratic_roots a b c = Fault DivByZero <-> a = 0 \/ a = min_ll) /\
    (a <> 0 -> a <> min_ll -> exists r, quadratic_roots a b c = Done r).
Proof.
  intros a b c Ha.
  assert (Hret : a <> 0 -> a <> min_ll ->
                 exists r, quadratic_roots a b c = Done r).
  { intros H0 Hm. apply quadratic_roots_returns.
    rewrite (wrap64_double_zero a Ha). tauto. }
  split; [|assumption]. split.
  - intros Hf.
    destruct (Z.eq_dec a 0) as [|H0]; [now left|].
    destruct (Z.eq_dec a min_ll) as [|Hm]; [now right|].
    destruct (Hret H0 Hm) as [r Hr]. congruence.
  - intros H. apply quadratic_roots_fault.
    now apply (wrap64_double_zero a Ha).
Qed.

Lemma quadratic_roots_faults_iff_witness :
  in_ll 0 /\
  (quadratic_roots 0 3 4 = Fault DivByZero <-> 0 = 0 \/ 0 = min_ll) /\
  (0 <> 0 -> 0 <> min_ll -> exists r, quadratic_roots 0 3 4 = Done r).
Proof.
  assert (H : in_ll 0) by (unfold in_ll, min_ll, max_ll; lia).
  split; [exact H|]. apply (quadratic_roots_faults_iff 0 3 4). exact H.
Defined.

(** X9. On coefficients of at most six digits with [a >= 1] nothing
    overflows and the result has a closed form.  With complex roots
    ([b * b < 4 * a * c]) it is [b / (2a)] in the high part and the root of
    [4ac - b * b] in the low part; with real roots it is
    [b / (2a) + s / (2a)] in the high part and [b / (2a) - s / (2a)] in the
    low part, [s] the root of [b * b - 4ac] and every division rounded
    down. *)
Theorem quadratic_roots_closed_form :
  forall a b c : Z,
    1 <= a < 1000000 -> 0 <= b < 1000000 -> 0 <= c < 1000000 ->
    quadratic_roots a b c =
      Done (if b * b <? 4 * a * c
            then b / (2 * a) * 1000000 + Z.sqrt (4 * a * c - b * b)
            else (b / (2 * a) + Z.sqrt (b * b - 4 * a * c) / (2 * a)) * 1000000
                 + (b / (2 * a) - Z.sqrt (b * b - 4 * a * c) / (2 * a))).
Proof.
  intros a b c Ha Hb Hc. unfold quadratic_roots.
  assert (Hbb : 0 <= b * b < 1000000000000) by nia.
  assert (Hac : 0 <= 4 * a * c < 4000000000000) by nia.
  rewrite (wrap64_small (b * b)) by in_range.
  rewrite (wrap64_small (4 * a)) by in_range.
  rewrite (wrap64_small (4 * a * c)) by in_range.
  rewrite (wrap64_small (b * b - 4 * a * c)) by in_range.
  rewrite (wrap64_small (- b)) by in_range.
  rewrite (wrap64_small (2 * a)) by in_range.
  rewrite !sdiv_done by lia. cbn [bind].
  rewrite base_term by lia.
  set (beta := b / (2 * a)).
  assert (Hbeta : 0 <= beta <= 499999).
  { subst beta. split; [apply Z.div_pos; lia|].
    apply Z.lt_succ_r. apply Z.div_lt_upper_bound; lia. }
  destruct (Z.ltb_spec (b * b - 4 * a * c) 0) as [Hneg | Hpos];
    destruct (Z.ltb_spec (b * b) (4 * a * c)) as [Hlt | Hge]; try lia.
  - rewrite (wrap64_small (- (b * b - 4 * a * c))) by in_range.
    replace (- (b * b - 4 * a * c)) with (4 * a * c - b * b) by lia.
    rewrite isqrt_floor by (unfold max_ll; lia). cbn [bind].
    assert (Hs : 0 <= Z.sqrt (4 * a * c - b * b) <= 1999999).
    { split; [apply Z.sqrt_nonneg|]. apply Z.lt_succ_r.
      apply Z.sqrt_lt_square; lia. }
    rewrite (abs_part beta 499999) by (unfold max_ll; lia).
    destruct (Z.ltb_spec (Z.sqrt (4 * a * c - b * b)) 0); [lia|].
    rewrite (wrap64_small (beta * 1000000)) by in_range.
    rewrite wrap64_small by in_range. reflexivity.
  - set (disc := b * b - 4 * a * c) in *.
    rewrite isqrt_floor by (unfold max_ll; lia). cbn [bind].
    assert (Hs : 0 <= Z.sqrt disc <= b).
    { split; [apply Z.sqrt_nonneg|]. apply Z.lt_succ_r.
      apply Z.sqrt_lt_square; [lia | lia | nia]. }
    rewrite sdiv_done by lia. cbn [bind].
    rewrite Z.quot_div_nonneg by lia.
    set (q := Z.sqrt disc / (2 * a)).
    assert (Hq : 0 <= q <= beta).
    { subst q beta. split; [apply Z.div_pos; lia|].
      apply Z.div_le_mono; lia. }
    rewrite (wrap64_small (- beta + q)) by in_range.
    rewrite (wrap64_small (- beta - q)) by in_range.
    destruct (Z.ltb_spec (- beta + q) (- beta - q)) as [Hlt' | Hge'];
      [lia|].
    replace (- beta - q) with (- (beta + q)) by lia.
    replace (- beta + q) with (- (beta - q)) by lia.
    rewrite (abs_part (beta + q) 999999) by (unfold max_ll; lia).
    rewrite (abs_part (beta - q) 499999) by (unfold max_ll; lia).
    rewrite (wrap64_small ((beta + q) * 1000000)) by in_range.
    rewrite wrap64_small by in_range. reflexivity.
Qed.

Lemma quadratic_roots_closed_form_witness :
  1 <= 10410 < 1000000 /\ 0 <= 11081 < 1000000 /\ 0 <= 8111 < 1000000 /\
  quadratic_roots 10410 11081 8111 =
    Done (if 11081 * 11081 <? 4 * 10410 * 8111
          then 11081 / (2 * 10410) * 1000000
               + Z.sqrt (4 * 10410 * 8111 - 11081 * 11081)
          else (11081 / (2 * 10410)
                + Z.sqrt (11081 * 11081 - 4 * 10410 * 8111) / (2 * 10410))
               * 1000000
               + (11081 / (2 * 10410)
                  - Z.sqrt (11081 * 11081 - 4 * 10410 * 8111) / (2 * 10410))).
Proof.
  split; [lia|]. split; [lia|]. split; [lia|].
  apply (quadratic_roots_closed_form 10410 11081 8111); lia.
Defined.

(** ** [quadratic_division] *)

(** X10. When the digit count [d] of a positive number is a multiple of
    three, the three chunks are its three groups of [d / 3] digits: the
    number is [a * 10^(2k) + b * 10^k + c] with [k = d / 3], [b] and [c]
    below [10^k] and [a] of exactly [k] digits. *)
Theorem chunks_partition_multiple_of_three :
  forall num d : Z,
    0 < num <= max_ll ->
    digit_return num = Done d ->
    d mod 3 = 0 ->
    exists a b c,
      chunks num (wrap32 d) = Done (a, b, c) /\
      num = a * 10 ^ (2 * (d / 3)) + b * 10 ^ (d / 3) + c /\
      10 ^ (d / 3 - 1) <= a < 10 ^ (d / 3) /\
      0 <= b < 10 ^ (d / 3) /\ 0 <= c < 10 ^ (d / 3).
Proof.
  intros num d Hn Hd H3.
  destruct (digit_return_pos num Hn) as (d' & Hd' & Hr & Hlo & Hhi).
  rewrite Hd in Hd'. injection Hd' as <-.
  assert (Hk : d = 3 * (d / 3) /\ 1 <= d / 3 <= 6)
    by (Z.div_mod_to_equations; lia).
  destruct Hk as [Hd3 Hk]. set (k := d / 3) in *.
  assert (Hp : 0 < 10 ^ k) by (apply Z.pow_pos_nonneg; lia).
  rewrite wrap32_small by lia.
  rewrite chunks_nonneg by lia. fold k.
  replace (d - k) with (2 * k) by lia.
  exists (num / 10 ^ (2 * k)), ((num / 10 ^ k) mod 10 ^ k), (num mod 10 ^ k).
  split; [reflexivity|].
  assert (H2k : 10 ^ (2 * k) = 10 ^ k * 10 ^ k).
  { replace (2 * k) with (k + k) by lia. apply Z.pow_add_r; lia. }
  pose proof (leading_chunk_bounds num d ltac:(lia) (conj Hlo Hhi)) as Ha.
  fold k in Ha. replace (d - k) with (2 * k) in Ha by lia.
  split; [|split; [exact Ha | split; apply Z.mod_pos_bound; assumption]].
  rewrite H2k, <- Z.div_div by lia.
  pose proof (Z.div_mod num (10 ^ k) ltac:(lia)) as E1.
  pose proof (Z.div_mod (num / 10 ^ k) (10 ^ k) ltac:(lia)) as E2.
  nia.
Qed.

Lemma chunks_partition_multiple_of_three_witness :
  0 < 104101108108111 <= max_ll /\
  digit_return 104101108108111 = Done 15 /\
  15 mod 3 = 0 /\
  exists a b c,
    chunks 104101108108111 (wrap32 15) = Done (a, b, c) /\
    104101108108111 = a * 10 ^ (2 * (15 / 3)) + b * 10 ^ (15 / 3) + c /\
    10 ^ (15 / 3 - 1) <= a < 10 ^ (15 / 3) /\
    0 <= b < 10 ^ (15 / 3) /\ 0 <= c < 10 ^ (15 / 3).
Proof.
  split; [unfold max_ll; lia|]. split; [reflexivity|]. split; [reflexivity|].
  apply (chunks_partition_multiple_of_three 104101108108111 15);
    [unfold max_ll; lia | reflexivity | reflexivity].
Defined.

(** ** The packer of [hash] *)

Lemma pack_from_nul s1 : forall s2 num,
  pack_from num (s1 ++ String NUL s2) = pack_from num s1.
Proof.
  induction s1 as [|c rest IH]; intros s2 num.
  - reflexivity.
  - cbn [String.append pack_from].
    destruct (byte_of c =? 0); [reflexivity | apply IH].
Qed.

(** X12. The packer reads a C string: whatever follows the first NUL
    changes neither the accumulator nor the outcome of [hash]. *)
Theorem hash_ignores_text_after_nul :
  forall (s1 s2 : string) (out : buffer),
    pack (s1 ++ String NUL s2) = pack s1 /\
    hash (s1 ++ String NUL s2) out = hash s1 out.
Proof.
  intros s1 s2 out.
  assert (Hp : pack (s1 ++ String NUL s2) = pack s1)
    by apply pack_from_nul.
  split; [assumption|]. unfold hash. now rewrite Hp.
Qed.

Lemma pack_from_app s1 : forall s2 num,
  Forall (fun ch => ch <> 0) (codes s1) ->
  pack_from num (s1 ++ s2) = pack_from (pack_from num s1) s2.
Proof.
  unfold codes.
  induction s1 as [|c rest IH]; intros s2 num Hnz; [reflexivity|].
  cbn [list_ascii_of_string map] in Hnz.
  inversion Hnz as [|? ? Hc Hrest]; subst.
  cbn [String.append pack_from].
  destruct (Z.eqb_spec (byte_of c) 0); [contradiction|].
  now apply IH.
Qed.

(** X13. Packing composes over concatenation: when the first string holds
    no NUL, packing the concatenation is packing the second string from
    the accumulator of the first. *)
Theorem pack_concatenation :
  forall s1 s2 : string,
    Forall (fun ch => ch <> 0) (codes s1) ->
    pack (s1 ++ s2) = pack_from (pack s1) s2.
Proof. intros s1 s2 Hnz. now apply pack_from_app. Qed.

Lemma pack_concatenation_witness :
  Forall (fun ch => ch <> 0) (codes "hel") /\
  pack ("hel" ++ "lo") = pack_from (pack "hel") "lo".
Proof.
  assert (H : Forall (fun ch => ch <> 0) (codes "hel"))
    by (repeat constructor; vm_compute; discriminate).
  split; [exact H|]. apply (pack_concatenation "hel" "lo"). exact H.
Defined.

Lemma total_digits_snoc l c :
  total_digits (l ++ [c]) = total_digits l + slot_digits c.
Proof.
  unfold total_digits. induction l as [|x l IH]; cbn [app fold_right]; lia.
Qed.

Lemma slot_digits_printable ch :
  printable_code ch ->
  (ch < 100 /\ slot_digits ch = 2) \/ (100 <= ch /\ slot_digits ch = 3).
Proof.
  unfold printable_code, slot_digits. intros H.
  destruct (Z.ltb_spec ch 10); [lia|].
  destruct (Z.ltb_spec ch 100); [left|right]; lia.
Qed.

(** The exact accumulator of a non-empty printable text has as many digits
    as its slots. *)
Lemma exact_digits l :
  Forall printable_code l -> l <> [] ->
  2 <= total_digits l /\
  10 ^ (total_digits l - 1) <= fold_left exact_step l 0
                            < 10 ^ total_digits l.
Proof.
  induction l as [|c l IH] using rev_ind; intros Hp Hne; [contradiction|].
  apply Forall_app in Hp as [Hl Hc]. inversion Hc as [|? ? Hc' _]; subst.
  rewrite exact_snoc, total_digits_snoc.
  change (exact_step (fold_left exact_step l 0) c)
    with (fold_left exact_step l 0 * slot c + c).
  destruct l as [|x l'].
  - change (fold_left exact_step [] 0) with 0.
    change (total_digits []) with 0.
    destruct (slot_printable c Hc') as [[? ->] | [? ->]];
      destruct (slot_digits_printable c Hc') as [[? ->] | [? ->]];
      unfold printable_code in Hc'; try lia.
    all: change (10 ^ (0 + 2 - 1)) with 10; change (10 ^ (0 + 2)) with 100;
      change (10 ^ (0 + 3 - 1)) with 100; change (10 ^ (0 + 3)) with 1000;
      lia.
  - destruct (IH Hl ltac:(discriminate)) as (Hw & Hlo & Hhi).
    set (w := total_digits (x :: l')) in *.
    set (E := fold_left exact_step (x :: l') 0) in *.
    assert (Hpw : 0 < 10 ^ (w - 1)) by (apply Z.pow_pos_nonneg; lia).
    assert (Hw1 : 10 ^ w = 10 ^ (w - 1) * 10).
    { replace w with (w - 1 + 1) at 1 by lia.
      rewrite Z.pow_add_r by lia. reflexivity. }
    destruct (slot_printable c Hc') as [[? ->] | [? ->]];
      destruct (slot_digits_printable c Hc') as [[? ->] | [? ->]];
      unfold printable_code in Hc'; try lia.
    + replace (w + 2 - 1) with (w - 1 + 2) by lia.
      rewrite !Z.pow_add_r by lia. change (10 ^ 2) with 100. nia.
    + replace (w + 3 - 1) with (w - 1 + 3) by lia.
      rewrite !Z.pow_add_r by lia. change (10 ^ 3) with 1000. nia.
Qed.

Lemma digits_unique n d w :
  10 ^ (d - 1) <= n < 10 ^ d -> 10 ^ (w - 1) <= n < 10 ^ w ->
  1 <= d -> 1 <= w -> d = w.
Proof.
  intros [Hd1 Hd2] [Hw1 Hw2] Hd Hw.
  destruct (Z.lt_trichotomy d w) as [Hlt | [Heq | Hgt]]; [|assumption|].
  - assert (10 ^ d <= 10 ^ (w - 1)) by (apply Z.pow_le_mono_r; lia). lia.
  - assert (10 ^ w <= 10 ^ (d - 1)) by (apply Z.pow_le_mono_r; lia). lia.
Qed.

Lemma codes_nil str : codes str = [] -> str = EmptyString.
Proof. destruct str; [reflexivity | discriminate]. Qed.

Lemma codes_length str : List.length (codes str) = String.length str.
Proof.
  unfold codes. rewrite length_map.
  induction str as [|c rest IH]; cbn; [reflexivity | now rewrite IH].
Qed.

(** X14. Each printable character gets a slot of its own width: the
    accumulator of a non-empty printable string packed without overflow has
    exactly as many decimal digits as the slots add up to, two for a
    character below 100 and three otherwise. *)
Theorem packed_digit_count :
  forall str : string,
    printable str -> no_overflow str = true -> str <> EmptyString ->
    digit_return (pack str) = Done (total_digits (codes str)).
Proof.
  intros str Hp Hno Hne.
  assert (Hl : codes str <> []) by (intros H; now apply Hne, codes_nil).
  destruct (exact_digits (codes str) Hp Hl) as (Hw & Hlo & Hhi).
  pose proof (pack_range str) as [_ Hmax].
  assert (He : pack str = fold_left exact_step (codes str) 0)
    by (apply pack_from_exact; assumption).
  rewrite <- He in Hlo, Hhi.
  assert (Hpos : 0 < 10 ^ (total_digits (codes str) - 1))
    by (apply Z.pow_pos_nonneg; lia).
  destruct (digit_return_pos (pack str) ltac:(lia))
    as (d & -> & Hd & Hdlo & Hdhi).
  f_equal. apply (digits_unique (pack str)); try lia.
Qed.

Lemma packed_digit_count_witness :
  printable "hello" /\ no_overflow "hello" = true /\
  "hello"%string <> EmptyString /\
  digit_return (pack "hello") = Done (total_digits (codes "hello")).
Proof.
  assert (H : printable "hello")
    by (repeat constructor; vm_compute; discriminate).
  split; [exact H|]. split; [reflexivity|]. split; [discriminate|].
  apply (packed_digit_count "hello"); [exact H | reflexivity | discriminate].
Defined.

Lemma total_digits_lower l :
  Forall printable_code l -> 2 * Z.of_nat (List.length l) <= total_digits l.
Proof.
  induction 1 as [|c l Hc Hl IH]; [cbn; lia|].
  change (total_digits (c :: l)) with (slot_digits c + total_digits l).
  cbn [List.length]. rewrite Nat2Z.inj_succ.
  destruct (slot_digits_printable c Hc) as [[_ ->] | [_ ->]]; lia.
Qed.

(** X15. The accumulator holds at most nine printable characters: a
    printable string that packs without overflow has at most 9 characters,
    so every printable string of 10 characters or more overflows. *)
Theorem no_overflow_at_most_nine :
  forall str : string,
    printable str -> no_overflow str = true ->
    (String.length str <= 9)%nat.
Proof.
  intros str Hp Hno.
  destruct (list_eq_dec Z.eq_dec (codes str) []) as [He | Hne].
  - apply codes_nil in He. subst str. cbn. lia.
  - destruct (exact_digits (codes str) Hp Hne) as (Hw & Hlo & _).
    pose proof (pack_range str) as [_ Hmax].
    assert (He : pack str = fold_left exact_step (codes str) 0)
      by (apply pack_from_exact; assumption).
    rewrite <- He in Hlo.
    assert (total_digits (codes str) - 1 < 19)
      by (apply pow10_lt_19; lia).
    pose proof (total_digits_lower (codes str) Hp) as Hlen.
    rewrite codes_length in Hlen. lia.
Qed.

Lemma no_overflow_at_most_nine_witness :
  printable "ccc   ccc" /\ no_overflow "ccc   ccc" = true /\
  (String.length "ccc   ccc" <= 9)%nat.
Proof.
  assert (H : printable "ccc   ccc")
    by (repeat constructor; vm_compute; discriminate).
  split; [exact H|]. split; [reflexivity|].
  apply (no_overflow_at_most_nine "ccc   ccc"); [exact H | reflexivity].
Defined.

Lemma no_overflow_from_short str : forall (k : nat) (num : Z),
  printable str -> (String.length str <= k)%nat ->
  0 <= num -> (num + 1) * 1000 ^ Z.of_nat k <= 2 ^ 63 ->
  no_overflow_from num str = true.
Proof.
  unfold printable, codes.
  induction str as [|c rest IH]; intros k num Hp Hlen Hnum Hroom;
    [reflexivity|].
  cbn [list_ascii_of_string map] in Hp.
  inversion Hp as [|? ? Hc Hrest]; subst.
  cbn [String.length] in Hlen. destruct k as [|k]; [lia|].
  rewrite Nat2Z.inj_succ, Z.pow_succ_r in Hroom by lia.
  assert (Hpk : 1 <= 1000 ^ Z.of_nat k)
    by (apply Z.lt_pred_le, Z.pow_pos_nonneg; lia).
  cbn [no_overflow_from].
  assert (Hs : slot (byte_of c) = 100 \/ slot (byte_of c) = 1000)
    by (destruct (slot_printable _ Hc) as [[_ ->] | [_ ->]]; tauto).
  unfold printable_code in Hc.
  destruct (Z.eqb_spec (byte_of c) 0); [lia|].
  assert (Hstep : 0 <= num * slot (byte_of c)
                  /\ num * slot (byte_of c) + byte_of c + 1
                     <= (num + 1) * 1000)
    by (destruct Hs as [-> | ->]; lia).
  assert (Hfit : (num + 1) * 1000 <= 2 ^ 63) by nia.
  apply andb_true_intro. split; [apply andb_true_intro; split|].
  - unfold fits_ll, min_ll, max_ll. apply andb_true_intro.
    split; [apply Z.leb_le | apply Z.leb_le]; lia.
  - unfold fits_ll, min_ll, max_ll. apply andb_true_intro.
    split; [apply Z.leb_le | apply Z.leb_le]; lia.
  - apply (IH k); try assumption; try lia. nia.
Qed.

(** X16. Six printable characters always fit: a printable string of at
    most 6 characters is packed without any overflow. *)
Theorem short_strings_do_not_overflow :
  forall str : string,
    printable str -> (String.length str <= 6)%nat ->
    no_overflow str = true.
Proof.
  intros str Hp Hlen. unfold no_overflow.
  apply (no_overflow_from_short str 6 0); try assumption; [lia|].
  vm_compute. discriminate.
Qed.

Lemma short_strings_do_not_overflow_witness :
  printable "~~~~~~" /\ (String.length "~~~~~~" <= 6)%nat /\
  no_overflow "~~~~~~" = true.
Proof.
  assert (H : printable "~~~~~~")
    by (repeat constructor; vm_compute; discriminate).
  split; [exact H|]. split; [cbn; lia|].
  apply (short_strings_do_not_overflow "~~~~~~"); [exact H | cbn; lia].
Defined.

(** ** Outcomes of [hash] *)

(** X17. [hash] returns a digest for every printable string of two to six
    characters. *)
Theorem hash_returns_on_short_strings :
  forall (str : string) (out : buffer),
    printable str -> (2 <= String.length str <= 6)%nat ->
    exists quad,
      quadratic_stage (pack str) = Done quad /\
      returned (hash str out) = Done (digest_of (finalizer (pack str) quad)).
Proof.
  intros str out Hp [H2 H6].
  assert (Hno : no_overflow str = true).
  { unfold no_overflow.
    apply (no_overflow_from_short str 6 0); try assumption; [lia|].
    vm_compute. discriminate. }
  pose proof (pack_lower_bound str Hp Hno (or_introl H2)) as Hge.
  pose proof (pack_range str) as [_ Hhi].
  destruct (quadratic_stage_large (pack str) (conj Hge Hhi)) as [q Hq].
  exists q. split; [assumption|].
  rewrite (hash_done str out q Hq). unfold returned. cbn [bind].
  rewrite c_str_terminated; [reflexivity|].
  apply fixed_hex_lower. constructor.
Qed.

Lemma hash_returns_on_short_strings_witness :
  printable "ab" /\ (2 <= String.length "ab" <= 6)%nat /\
  exists quad,
    quadratic_stage (pack "ab") = Done quad /\
    returned (hash "ab" blank) = Done (digest_of (finalizer (pack "ab") quad)).
Proof.
  assert (H : printable "ab")
    by (repeat constructor; vm_compute; discriminate).
  split; [exact H|]. split; [cbn; lia|].
  apply (hash_returns_on_short_strings "ab" blank); [exact H | cbn; lia].
Defined.

(** X18. On a string packed without overflow, a call of [hash] either
    returns or divides by zero, and it divides by zero exactly when the
    accumulator of the string is at most 99. *)
Theorem hash_faults_iff :
  forall (str : string) (out : buffer),
    no_overflow str = true ->
    (hash str out = Fault DivByZero <-> pack str <= 99) /\
    ((exists b, hash str out = Done b) \/ hash str out = Fault DivByZero).
Proof.
  intros str out Hno.
  pose proof (pack_range str) as [_ Hhi].
  assert (Hlo : 0 <= pack str)
    by (apply pack_from_nonneg; [lia | exact Hno]).
  assert (Hcases : pack str <= 99 /\ hash str out = Fault DivByZero
                   \/ 100 <= pack str /\ exists b, hash str out = Done b).
  { destruct (Z.le_gt_cases (pack str) 99) as [Hs | Hbig].
    - left. split; [assumption|].
      apply hash_fault, quadratic_stage_small. lia.
    - right. split; [lia|].
      destruct (quadratic_stage_large (pack str) ltac:(lia)) as [r Hr].
      eexists. apply (hash_done str out r Hr). }
  split.
  - split.
    + intros Hf. destruct Hcases as [[Hs _] | [_ [b Hb]]]; [assumption|].
      rewrite Hb in Hf. discriminate.
    + intros Hs. destruct Hcases as [[_ Hf] | [Hbig _]]; [assumption | lia].
  - destruct Hcases as [[_ Hf] | [_ Hb]]; [now right | now left].
Qed.

Lemma hash_faults_iff_witness :
  no_overflow "a" = true /\
  (hash "a" blank = Fault DivByZero <-> pack "a" <= 99) /\
  ((exists b, hash "a" blank = Done b) \/ hash "a" blank = Fault DivByZero).
Proof.
  split; [reflexivity|]. apply (hash_faults_iff "a" blank). reflexivity.
Defined.

Lemma pack_single c : byte_of c <> 0 -> pack (String c EmptyString) = byte_of c.
Proof.
  intros Hc. unfold pack. cbn [pack_from].
  destruct (Z.eqb_spec (byte_of c) 0); [contradiction|].
  assert (Hb : 0 <= byte_of c < 256).
  { unfold byte_of. pose proof (N_ascii_bounded c). lia. }
  unfold pack_step.
  destruct (byte_of c <? 10); [|destruct (byte_of c <? 100)];
    rewrite Z.mul_0_l; change (wrap64 0) with 0;
    apply wrap64_small; unfold in_ll, min_ll, max_ll; lia.
Qed.

(** X19. On a string of one printable character, [hash] divides by zero
    when the character is below 100 (the space up to the letter c) and
    returns a digest when it is 100 or more (the letter d up to the
    tilde). *)
Theorem hash_single_character :
  forall (c : ascii) (out : buffer),
    printable_code (byte_of c) ->
    (byte_of c < 100 -> hash (String c EmptyString) out = Fault DivByZero) /\
    (100 <= byte_of c -> exists b, hash (String c EmptyString) out = Done b).
Proof.
  intros c out Hc. unfold printable_code in Hc.
  pose proof (pack_single c ltac:(lia)) as Hp. split; intros Hlt.
  - apply hash_fault. rewrite Hp. apply quadratic_stage_small. lia.
  - destruct (quadratic_stage_large (pack (String c EmptyString)))
      as [q Hq]; [rewrite Hp; unfold max_ll; lia|].
    eexists. apply (hash_done _ out q Hq).
Qed.

Lemma hash_single_character_witness :
  printable_code (byte_of "c") /\
  (byte_of "c" < 100 -> hash (String "c" EmptyString) blank = Fault DivByZero) /\
  (100 <= byte_of "c" ->
   exists b, hash (String "c" EmptyString) blank = Done b).
Proof.
  assert (H : printable_code (byte_of "c"))
    by (vm_compute; split; discriminate).
  split; [exact H|]. apply (hash_single_character "c" blank). exact H.
Defined.

(** ** The finalizer of [hash] *)

Lemma u64_high_bits a i : in_u64 a -> 64 <= i -> Z.testbit a i = false.
Proof.
  intros Ha Hi. rewrite <- (Z.mod_small a (2 ^ 64)) by exact Ha.
  apply Z.mod_pow2_bits_high. lia.
Qed.

(** [h ^= h >> 33] is its own inverse on 64-bit values. *)
Lemma xorshift_involutive h :
  in_u64 h ->
  let g := fun x => Z.lxor x (Z.shiftr x 33) in g (g h) = h.
Proof.
  intros Hh g. subst g. cbv beta. apply Z.bits_inj'. intros i Hi.
  rewrite !Z.lxor_spec, !Z.shiftr_spec, !Z.lxor_spec, !Z.shiftr_spec by lia.
  rewrite (u64_high_bits h (i + 33 + 33)) by (assumption || lia).
  destruct (Z.testbit h i), (Z.testbit h (i + 33)); reflexivity.
Qed.

Lemma xorshift_injective a b :
  in_u64 a -> in_u64 b ->
  Z.lxor a (Z.shiftr a 33) = Z.lxor b (Z.shiftr b 33) -> a = b.
Proof.
  intros Ha Hb He.
  rewrite <- (xorshift_involutive a Ha), <- (xorshift_involutive b Hb).
  cbv beta. now rewrite He.
Qed.

(** Multiplying by a constant that has an inverse modulo [2^64] loses
    nothing. *)
Lemma mul_u64_injective K Kinv a b :
  (K * Kinv) mod 2 ^ 64 = 1 ->
  to_u64 (to_u64 a * K) = to_u64 (to_u64 b * K) -> to_u64 a = to_u64 b.
Proof.
  unfold to_u64. intros HK He.
  assert (Hinv : forall x, x mod 2 ^ 64
                           = (((x mod 2 ^ 64) * K) mod 2 ^ 64 * Kinv) mod 2 ^ 64).
  { intros x. rewrite Z.mul_mod_idemp_l by lia.
    rewrite <- Z.mul_assoc, <- Z.mul_mod_idemp_r, HK by lia.
    rewrite Z.mul_1_r. now rewrite Z.mod_mod by lia. }
  rewrite (Hinv a), (Hinv b). now rewrite He.
Qed.

Lemma mul_in_u64_injective K Kinv a b :
  (K * Kinv) mod 2 ^ 64 = 1 -> in_u64 a -> in_u64 b ->
  to_u64 (a * K) = to_u64 (b * K) -> a = b.
Proof.
  intros HK Ha Hb He. unfold in_u64 in Ha, Hb.
  rewrite <- (Z.mod_small a (2 ^ 64)), <- (Z.mod_small b (2 ^ 64)) by assumption.
  apply (mul_u64_injective K Kinv); [assumption|].
  unfold to_u64 in *.
  rewrite (Z.mod_small a), (Z.mod_small b) by assumption. exact He.
Qed.

Lemma lxor_cancel_r a b x : Z.lxor a x = Z.lxor b x -> a = b.
Proof.
  intros H.
  rewrite <- (Z.lxor_0_r a), <- (Z.lxor_0_r b), <- (Z.lxor_nilpotent x).
  now rewrite <- !Z.lxor_assoc, H.
Qed.

Lemma lxor_cancel_l a b x : Z.lxor x a = Z.lxor x b -> a = b.
Proof.
  intros H. apply (lxor_cancel_r a b x).
  now rewrite (Z.lxor_comm a), (Z.lxor_comm b).
Qed.

(** The last five steps of the finalizer are one to one on 64-bit
    values. *)
Lemma avalanche_injective h1 h2 :
  in_u64 h1 -> in_u64 h2 ->
  (let h := Z.lxor h1 (Z.shiftr h1 33) in
   let h := to_u64 (h * K_mix1) in
   let h := Z.lxor h (Z.shiftr h 33) in
   let h := to_u64 (h * K_mix2) in
   Z.lxor h (Z.shiftr h 33))
  = (let h := Z.lxor h2 (Z.shiftr h2 33) in
     let h := to_u64 (h * K_mix1) in
     let h := Z.lxor h (Z.shiftr h 33) in
     let h := to_u64 (h * K_mix2) in
     Z.lxor h (Z.shiftr h 33)) ->
  h1 = h2.
Proof.
  intros H1 H2. cbv zeta. intros He.
  apply xorshift_injective in He; try apply to_u64_range.
  apply (mul_in_u64_injective K_mix2 K_mix2_inv) in He;
    [|vm_compute; reflexivity | apply xorshift_u64, to_u64_range ..].
  apply xorshift_injective in He; try apply to_u64_range.
  apply (mul_in_u64_injective K_mix1 K_mix1_inv) in He;
    [|vm_compute; reflexivity | apply xorshift_u64; assumption ..].
  now apply xorshift_injective in He.
Qed.

Lemma to_u64_injective a b : in_ll a -> in_ll b -> to_u64 a = to_u64 b -> a = b.
Proof.
  unfold in_ll, min_ll, max_ll, to_u64. intros Ha Hb He.
  pose proof (Z.div_mod a (2 ^ 64) ltac:(lia)) as Da.
  pose proof (Z.div_mod b (2 ^ 64) ltac:(lia)) as Db.
  pose proof (Z.mod_pos_bound a (2 ^ 64) ltac:(lia)).
  pose proof (Z.mod_pos_bound b (2 ^ 64) ltac:(lia)).
  lia.
Qed.

(** X20. The finalizer loses nothing: with the scrambled value fixed it is
    one to one in the packed integer, and with the packed integer fixed it
    is one to one in the scrambled value. *)
Theorem finalizer_injective :
  forall n1 q1 n2 q2 : Z,
    in_ll n1 -> in_ll q1 -> in_ll n2 -> in_ll q2 ->
    finalizer n1 q1 = finalizer n2 q2 ->
    (q1 = q2 -> n1 = n2) /\ (n1 = n2 -> q1 = q2).
Proof.
  intros n1 q1 n2 q2 Hn1 Hq1 Hn2 Hq2 He. unfold finalizer in He.
  apply avalanche_injective in He;
    try (apply lxor_u64; apply to_u64_range).
  split.
  - intros ->. apply lxor_cancel_r in He. now apply to_u64_injective.
  - intros ->. apply lxor_cancel_l in He.
    apply (mul_u64_injective K_phi K_phi_inv) in He;
      [|vm_compute; reflexivity].
    now apply to_u64_injective.
Qed.

Lemma finalizer_injective_witness :
  in_ll 9798 /\ in_ll 9 /\ in_ll 9798 /\ in_ll 9 /\
  finalizer 9798 9 = finalizer 9798 9 /\
  (9 = 9 -> 9798 = 9798) /\ (9798 = 9798 -> 9 = 9).
Proof.
  assert (H1 : in_ll 9798) by (unfold in_ll, min_ll, max_ll; lia).
  assert (H2 : in_ll 9) by (unfold in_ll, min_ll, max_ll; lia).
  split; [exact H1|]. split; [exact H2|]. split; [exact H1|].
  split; [exact H2|]. split; [reflexivity|].
  apply (finalizer_injective 9798 9 9798 9);
    [exact H1 | exact H2 | exact H1 | exact H2 | reflexivity].
Defined.

(** ** The buffer of [hash] *)

Lemma Done_eq {A : Type} (a b : A) : Done a = Done b -> a = b.
Proof. congruence. Qed.

(** X21. A returning call overwrites the whole 17-byte buffer: what the
    buffer held before is gone, and it holds the 16 digits followed by the
    NUL, hence the same bytes whatever it held. *)
Theorem hash_overwrites_buffer :
  forall (str : string) (out out' : buffer),
    List.length out = 17%nat ->
    hash str out = Done out' ->
    List.length out' = 17%nat /\
    (exists quad,
       quadratic_stage (pack str) = Done quad /\
       out' = digest_of (finalizer (pack str) quad) ++ [NUL]) /\
    (forall other, List.length other = 17%nat ->
                   hash str other = Done out').
Proof.
  intros str out out' Hlen Hh.
  destruct (quadratic_stage_outcomes (pack str) (pack_range str))
    as [[q Hq] | Hq];
    [|rewrite (hash_fault str out _ Hq) in Hh; discriminate].
  rewrite (hash_done str out q Hq) in Hh. apply Done_eq in Hh. subst out'.
  rewrite skipn_all2 by lia.
  split; [|split].
  - rewrite length_app. unfold digest_of. rewrite fixed_hex_length.
    reflexivity.
  - exists q. now split.
  - intros other Ho. rewrite (hash_done str other q Hq).
    now rewrite skipn_all2 by lia.
Qed.

Lemma hash_overwrites_buffer_witness :
  List.length blank = 17%nat /\
  hash "hello" blank
  = Done (snprintf_016llx blank out_size (finalizer (pack "hello") 14661)) /\
  List.length (snprintf_016llx blank out_size (finalizer (pack "hello") 14661))
  = 17%nat.
Proof.
  split; [reflexivity|]. split; [vm_compute; reflexivity|].
  apply (hash_overwrites_buffer "hello" blank
           (snprintf_016llx blank out_size (finalizer (pack "hello") 14661)));
    [reflexivity | vm_compute; reflexivity].
Defined.
